(** * xshare: waiting pools, pairing and the connection registry

    A shallow embedding of the matchmaking core of xshare:
    the socket handlers (waiting pools [toSend] / [toReceive], the [paired]
    connection table, the pairing handlers and the expiry timers) and the
    data models ([UserData], [Users], [Connection], [Pairs]).

    Conventions of the embedding.
    - A JavaScript object used as a dictionary is a [gmap]; peer and
      connection identifiers are numbers, modelled as [N].
    - [for (k in obj)] visits integer keys in ascending order; this is
      [Users.enumerate].
    - A [Connection] of the handlers is stored under two keys of
      [paired._connections] and mutated through either of them, so the
      handlers' registry is a map from keys to references into a heap of
      connection objects.
    - [x.socket.emit(name, payload)] appends an [emission] to the output
      trace of the operation; the emission records the user object whose
      socket is used.
    - [setTimeout(f, TIMEOUT)] appends a closure to the pending timers of the
      run time; [elapse] lets time pass and runs the closures that are due,
      oldest first.
    - The assignment of socket ids ([setID]), the HTTP routes and
      [utils.js] are outside the embedding. *)

From Stdlib Require Import NArith ZArith Lia.
From stdpp Require Import gmap list strings sorting.

Local Open Scope N_scope.

(** ** Data model *)

(** The transport handle of socket.io, with the two fields the handlers read
    ([socket.handshake.address.address] and [.port]). *)
Record Socket := mkSocket {
  handle : N;
  address : string;
  address_port : N
}.

#[global] Instance Socket_eq_dec : EqDecision Socket.
Proof. solve_decision. Defined.

(** [geo] of a request: latitude, longitude, accuracy. *)
Record Geo := mkGeo {
  latitude : Z;
  longitude : Z;
  accuracy : Z
}.

(** [fileInfo] of a send request: the handlers read [name] and [size]. *)
Module FileInfo.

Record t := mk {
  name : string;
  size : N
}.

End FileInfo.

Module UserData.

(** [function UserData()]: every field starts as [null]; [id] and [socket]
    are assigned by each handler before the object is used. *)
Record t := mk {
  id : N;
  socket : Socket;
  ip : string;
  port : N;
  geoLongitude : option Z;
  geoLatitude : option Z;
  geoAccuracy : option Z;
  fileName : option string;
  fileSize : option N
}.

#[global] Instance eq_dec : EqDecision t.
Proof. solve_decision. Defined.

End UserData.

(** Outbound notifications, with their payloads. *)
Inductive event :=
  | confirmSend (partnerID : N) (fileName : option string) (fileSize : option N)
  | confirmReceive (partnerID : N) (fileName : option string) (fileSize : option N)
  | receive (partnerID : N) (fileName : option string) (fileSize : option N)
  | send (partnerID : N) (fileName : option string) (fileSize : option N)
  | pairFailed
  | startSending (senderID receiverID : N)
  | betrayedSending (partnerID : N)
  | betrayedReceiving (partnerID : N).

#[global] Instance event_eq_dec : EqDecision event.
Proof. solve_decision. Defined.

(** [to.socket.emit(what)]. *)
Record emission := Emit {
  to : UserData.t;
  what : event
}.

#[global] Instance emission_eq_dec : EqDecision emission.
Proof. solve_decision. Defined.

(** [var TIMEOUT = 1500;] *)
Definition TIMEOUT : N := 1500.

(** ** Users: the waiting pool *)

Module Users.

(** [this._store]: 'user/socket id' => UserData. *)
Abbreviation store := (gmap N UserData.t).

(** The closure handed to [setTimeout] by [addTillExpire]: it captures
    [theID] and [callback] (and the store of the pool it was made for, which
    the owner of the pool records next to it). *)
Record closure := mkClosure {
  theID : N;
  callback : UserData.t -> list emission
}.

(** [this.clear = function(userID) { delete this._store[userID]; }] *)
Definition clear (userID : N) (s : store) : store :=
  delete userID s.

(** [addTillExpire]: the store after [this._store[user.id] = user], and the
    closure passed to [setTimeout(..., TIMEOUT)]. *)
Definition addTillExpire (user : UserData.t)
    (callback : UserData.t -> list emission) (s : store) : store * closure :=
  (<[UserData.id user := user]> s,
   {| theID := UserData.id user; callback := callback |}).

(** The body of the closure, run when the timer fires:
    [if (theID in store) { var u = store[theID]; callback(u); delete store[theID]; }] *)
Definition expire (c : closure) (s : store) : store * list emission :=
  match s !! theID c with
  | Some u => (delete (theID c) s, callback c u)
  | None => (s, [])
  end.

(** The keys of the store in the order of [for (var uid in this._store)]
    and of [Object.keys]: ascending. *)
Definition enumerate (s : store) : list N :=
  merge_sort N.le (map fst (map_to_list s)).

(** [pickUpon]: the loop returns at its first iteration; with no iteration
    the function returns [undefined]. *)
Definition pickUpon (baseUser : UserData.t) (s : store) : option UserData.t :=
  match enumerate s with
  | uid :: _ => s !! uid
  | [] => None
  end.

(** [userIDs]: [Object.keys(this._store)]. *)
Definition userIDs (s : store) : list N := enumerate s.

End Users.

(** ** The data models: Connection and Pairs *)

(** [this.status]: "INIT", "SENDING" or "RECEIVING". *)
Inductive Status := INIT | SENDING | RECEIVING.

#[global] Instance Status_eq_dec : EqDecision Status.
Proof. solve_decision. Defined.

(** A JavaScript call either completes or throws; the only throw of the
    modelled code is the call of an omitted [callback]. *)
Inductive completion (A : Type) :=
  | Normal (a : A)
  | TypeError.
Arguments Normal {A} a.
Arguments TypeError {A}.

(** [if (x)] on an optional number: [undefined] and [0] are falsy. *)
Definition truthy (x : option N) : bool :=
  match x with
  | Some n => negb (n =? 0)
  | None => false
  end.

Module Connection.

(** [Connection] of the data models: it carries its identifier. *)
Record t := mk {
  id : N;
  sender : UserData.t;
  senderConfirmed : bool;
  receiver : UserData.t;
  receiverConfirmed : bool;
  status : Status
}.

#[global] Instance eq_dec : EqDecision t.
Proof. solve_decision. Defined.

Definition set_senderConfirmed (b : bool) (c : t) : t :=
  mk (id c) (sender c) b (receiver c) (receiverConfirmed c) (status c).

Definition set_receiverConfirmed (b : bool) (c : t) : t :=
  mk (id c) (sender c) (senderConfirmed c) (receiver c) b (status c).

End Connection.

Module Pairs.

(** The state of one [Pairs] object: the private counter [connectionID],
    the primary store [_connections] ('connection ID' => Connection) and
    the secondary index [_indices] ('senderID / receiverID' => its
    connection id). *)
Record t := mk {
  connectionID : N;
  _connections : gmap N Connection.t;
  _indices : gmap N N
}.

(** [new Pairs()]. *)
Definition new : t := mk 0 ∅ ∅.

(** [_nextID]: [connectionID++; return connectionID;] *)
Definition _nextID (p : t) : t * N :=
  (mk (connectionID p + 1) (_connections p) (_indices p), connectionID p + 1).

(** [get]: [this._connections[conID]]. *)
Definition get (conID : N) (p : t) : option Connection.t :=
  _connections p !! conID.

(** [clear(conID, fromUserID, callback)]; the last two arguments are
    optional. The result carries what the callback emitted. *)
Definition clear (conID : N) (fromUserID : option N)
    (callback : option (UserData.t -> list emission)) (p : t)
    : completion (t * list emission) :=
  match _connections p !! conID with
  | None => Normal (p, [])
  | Some con =>
      let sender := Connection.sender con in
      let receiver := Connection.receiver con in
      let notified :=
        if truthy fromUserID then
          let other :=
            if decide (fromUserID = Some (UserData.id sender))
            then receiver   (* from sender, tell receiver *)
            else sender     (* from receiver, tell sender *) in
          match callback with
          | Some cb => Normal (cb other)
          | None => TypeError
          end
        else Normal [] in
      match notified with
      | TypeError => TypeError
      | Normal out =>
          Normal (mk (connectionID p)
                     (delete conID (_connections p))
                     (delete (UserData.id receiver)
                        (delete (UserData.id sender) (_indices p))),
                  out)
      end
  end.

(** [add(sender, receiver)]: returns the connection's id. *)
Definition add (sender receiver : UserData.t) (p : t) : t * N :=
  let '(p1, conID) := _nextID p in
  let con := Connection.mk conID sender false receiver false INIT in
  let indices1 :=
    delete (UserData.id receiver) (delete (UserData.id sender) (_indices p1)) in
  (mk (connectionID p1)
      (<[conID := con]> (_connections p1))
      (<[UserData.id receiver := conID]>
         (<[UserData.id sender := conID]> indices1)),
   conID).

(** [confirm(conID, userID)]: whether both users have confirmed. *)
Definition confirm (conID userID : N) (p : t) : t * bool :=
  match _connections p !! conID with
  | None => (p, false)
  | Some con =>
      let sender := Connection.sender con in
      let con' :=
        if decide (UserData.id sender = userID)
        then Connection.set_senderConfirmed true con     (* is the sender *)
        else Connection.set_receiverConfirmed true con   (* is the receiver *) in
      (mk (connectionID p) (<[conID := con']> (_connections p)) (_indices p),
       Connection.senderConfirmed con' && Connection.receiverConfirmed con')
  end.

(** One element of the array [ids] returns. *)
Record entry := mkEntry {
  entry_connectionID : N;
  entry_senderID : N;
  entry_receiverID : N
}.

(** [ids]: one element per stored connection, in the order of
    [for (var conID in this._connections)] (ascending); the [console.log]
    calls are left out. *)
Definition ids (p : t) : list entry :=
  omap (λ conID,
          (λ con, mkEntry conID (UserData.id (Connection.sender con))
                    (UserData.id (Connection.receiver con)))
            <$> _connections p !! conID)
       (merge_sort N.le (map fst (map_to_list (_connections p)))).

(** The states a [Pairs] object can be in: [new Pairs()] followed by calls
    of [add], [confirm] and [clear] that return. *)
Inductive reachable : t -> Prop :=
  | reachable_new : reachable new
  | reachable_add sender receiver p :
      reachable p -> reachable (add sender receiver p).1
  | reachable_confirm conID userID p :
      reachable p -> reachable (confirm conID userID p).1
  | reachable_clear conID fromUserID callback p p' out :
      reachable p ->
      clear conID fromUserID callback p = Normal (p', out) ->
      reachable p'.

(** Half of the consistency of [_indices] with [_connections]: an index
    entry names a stored connection in which the key takes part. *)
Definition index_sound (p : t) : Prop :=
  ∀ k c, _indices p !! k = Some c ->
    ∃ con, _connections p !! c = Some con ∧
           (k = UserData.id (Connection.sender con) ∨
            k = UserData.id (Connection.receiver con)).

(** The other half: both participants of a stored connection are indexed
    to it. *)
Definition index_complete (p : t) : Prop :=
  ∀ c con, _connections p !! c = Some con ->
    _indices p !! UserData.id (Connection.sender con) = Some c ∧
    _indices p !! UserData.id (Connection.receiver con) = Some c.

(** Identifiers handed out so far are at most the counter. *)
Definition ids_bounded (p : t) : Prop :=
  ∀ c con, _connections p !! c = Some con ->
    c <= connectionID p ∧ Connection.id con = c.

End Pairs.

(** ** The socket handlers *)

Module Handlers.

(** The handlers use their own copies of [UserData] and [Users], which are
    the same text as the data models'; both are [UserData] and [Users]
    above. Their [Connection] has no [id]. *)
Module Connection.

Record t := mk {
  sender : UserData.t;
  senderConfirmed : bool;
  receiver : UserData.t;
  receiverConfirmed : bool;
  status : Status
}.

#[global] Instance eq_dec : EqDecision t.
Proof. solve_decision. Defined.

End Connection.

(** [var paired = { _connections: {}, clear, add, confirm }].
    [_connections] maps 'senderID' and 'receiverID' to the same Connection
    object: the map holds references, the objects live in [heap], and
    [new Connection()] allocates at the end of the heap. *)
Module paired.

Record t := mk {
  _connections : gmap N nat;
  heap : list Connection.t
}.

Definition empty : t := mk ∅ [].

(** [this._connections[k]], dereferenced. A reference held by the table
    always has its object in the heap ([registry_ok] below); a key that is
    absent reads as [undefined]. *)
Definition deref (k : N) (p : t) : option Connection.t :=
  match _connections p !! k with
  | Some ref => heap p !! ref
  | None => None
  end.

(** [clear(userID)]. *)
Definition clear (userID : N) (p : t) : t * list emission :=
  match deref userID p with
  | None => (p, [])
  | Some con =>
      let sender := Connection.sender con in
      let receiver := Connection.receiver con in
      let out :=
        if decide (userID = UserData.id sender)
        then (* tell receiver *)
          [Emit receiver (betrayedSending (UserData.id sender))]
        else (* tell sender *)
          [Emit sender (betrayedReceiving (UserData.id receiver))] in
      (mk (delete (UserData.id receiver)
             (delete (UserData.id sender) (_connections p)))
          (heap p),
       out)
  end.

(** [add(sender, receiver)]. *)
Definition add (sender receiver : UserData.t) (p : t) : t * list emission :=
  let '(p1, out1) := clear (UserData.id sender) p in
  let '(p2, out2) := clear (UserData.id receiver) p1 in
  let con := Connection.mk sender false receiver false INIT in
  let ref := length (heap p2) in
  (mk (<[UserData.id receiver := ref]>
         (<[UserData.id sender := ref]> (_connections p2)))
      (heap p2 ++ [con]),
   out1 ++ out2).

(** [confirm(myID, partnerID)]. *)
Definition confirm (myID partnerID : N) (p : t) : t * list emission :=
  match _connections p !! myID, _connections p !! partnerID with
  | Some ref, Some _ =>
      match heap p !! ref with
      | None => (p, [])
      | Some con =>
          let sender := Connection.sender con in
          let receiver := Connection.receiver con in
          let con1 :=
            if decide (UserData.id sender = myID)
            then (* this user is the sender *)
              Connection.mk sender true receiver
                (Connection.receiverConfirmed con) (Connection.status con)
            else (* this user is the receiver *)
              Connection.mk sender (Connection.senderConfirmed con) receiver
                true (Connection.status con) in
          if Connection.senderConfirmed con1 && Connection.receiverConfirmed con1
          then (* both confirmed, real start *)
            (mk (_connections p)
                (<[ref := Connection.mk sender (Connection.senderConfirmed con1)
                            receiver (Connection.receiverConfirmed con1) SENDING]>
                   (heap p)),
             [Emit sender
                (startSending (UserData.id sender) (UserData.id receiver));
              Emit receiver
                (startSending (UserData.id sender) (UserData.id receiver))])
          else (mk (_connections p) (<[ref := con1]> (heap p)), [])
      end
  | _, _ => (p, [])
  end.

End paired.

(** [parseAddress], [parsePort]. *)
Definition parseAddress (socket : Socket) : string := address socket.
Definition parsePort (socket : Socket) : N := address_port socket.

(** The two pools, [toSend] and [toReceive]. *)
Inductive pool := ToSend | ToReceive.

#[global] Instance pool_eq_dec : EqDecision pool.
Proof. solve_decision. Defined.

(** A pending timer: the closure of [addTillExpire], the store it captured
    and the instant at which it is due. *)
Record timer := mkTimer {
  captured : pool;
  body : Users.closure;
  deadline : N
}.

(** The module-level variables [toSend], [toReceive] and [paired], with the
    pending timers and the clock (in milliseconds) of the run time. *)
Record state := mk {
  toSend : Users.store;
  toReceive : Users.store;
  registry : paired.t;
  timers : list timer;
  now : N
}.

Definition initial : state := mk ∅ ∅ paired.empty [] 0.

(** [function(u) { u.socket.emit('pairFailed'); }] *)
Definition notifyPairFailed (u : UserData.t) : list emission :=
  [Emit u pairFailed].

(** The [UserData] object [onPairToReceive] builds: [fileName] and
    [fileSize] stay [null]; the geolocation is copied when [geo] is given. *)
Definition receiving_user (socket : Socket) (receiveID : N) (geo : option Geo)
    : UserData.t :=
  UserData.mk receiveID socket (parseAddress socket) (parsePort socket)
    (longitude <$> geo) (latitude <$> geo) (accuracy <$> geo) None None.

(** The [UserData] object [onPairToSend] builds. *)
Definition sending_user (socket : Socket) (sendID : N) (geo : option Geo)
    (fileInfo : FileInfo.t) : UserData.t :=
  UserData.mk sendID socket (parseAddress socket) (parsePort socket)
    (longitude <$> geo) (latitude <$> geo) (accuracy <$> geo)
    (Some (FileInfo.name fileInfo)) (Some (FileInfo.size fileInfo)).

(** [onPairToReceive(socket, receiveID, geo)]. *)
Definition onPairToReceive (socket : Socket) (receiveID : N) (geo : option Geo)
    (st : state) : state * list emission :=
  let toSend1 := Users.clear receiveID (toSend st) in
  let toReceive1 := Users.clear receiveID (toReceive st) in
  let user := receiving_user socket receiveID geo in
  match Users.pickUpon user toSend1 with
  | Some partner =>
      (* successfully finds someone to pair *)
      let out :=
        [Emit partner (confirmSend (UserData.id user)
                         (UserData.fileName partner) (UserData.fileSize partner));
         Emit user (confirmReceive (UserData.id partner)
                      (UserData.fileName partner) (UserData.fileSize partner))] in
      let toSend2 := Users.clear (UserData.id partner) toSend1 in
      let '(reg, out') := paired.add partner user (registry st) in
      (mk toSend2 toReceive1 reg (timers st) (now st), out ++ out')
  | None =>
      (* fails to pair *)
      let '(toReceive2, c) :=
        Users.addTillExpire user notifyPairFailed toReceive1 in
      (mk toSend1 toReceive2 (registry st)
          (timers st ++ [mkTimer ToReceive c (now st + TIMEOUT)]) (now st),
       [])
  end.

(** [onPairToSend(socket, sendID, geo, fileInfo)]. *)
Definition onPairToSend (socket : Socket) (sendID : N) (geo : option Geo)
    (fileInfo : FileInfo.t) (st : state) : state * list emission :=
  let toSend1 := Users.clear sendID (toSend st) in
  let toReceive1 := Users.clear sendID (toReceive st) in
  let user := sending_user socket sendID geo fileInfo in
  match Users.pickUpon user toReceive1 with
  | Some partner =>
      (* successfully finds someone to pair *)
      let out :=
        [Emit partner (receive (UserData.id user)
                         (UserData.fileName user) (UserData.fileSize user));
         Emit user (send (UserData.id partner)
                      (UserData.fileName user) (UserData.fileSize user))] in
      let toReceive2 := Users.clear (UserData.id partner) toReceive1 in
      let '(reg, out') := paired.add user partner (registry st) in
      (mk toSend1 toReceive2 reg (timers st) (now st), out ++ out')
  | None =>
      (* fails to pair *)
      let '(toSend2, c) :=
        Users.addTillExpire user notifyPairFailed toSend1 in
      (mk toSend2 toReceive1 (registry st)
          (timers st ++ [mkTimer ToSend c (now st + TIMEOUT)]) (now st),
       [])
  end.

(** The events a socket delivers to the listeners of [initSocket]. *)
Inductive input :=
  | disconnect (assignedID : N)
  | pairToReceive (socket : Socket) (id : N) (geo : option Geo)
  | pairToSend (socket : Socket) (id : N) (geo : option Geo)
      (fileInfo : FileInfo.t)
  | confirmFailed (myID : N)
  | confirm (myID partnerID : N).

(** The listeners registered by [initSocket]. *)
Definition listen (i : input) (st : state) : state * list emission :=
  match i with
  | disconnect assignedID =>
      (mk (Users.clear assignedID (toSend st))
          (Users.clear assignedID (toReceive st))
          (registry st) (timers st) (now st),
       [])
  | pairToReceive socket id geo => onPairToReceive socket id geo st
  | pairToSend socket id geo fileInfo => onPairToSend socket id geo fileInfo st
  | confirmFailed myID =>
      let '(reg, out) := paired.clear myID (registry st) in
      (mk (toSend st) (toReceive st) reg (timers st) (now st), out)
  | confirm myID partnerID =>
      let '(reg, out) := paired.confirm myID partnerID (registry st) in
      (mk (toSend st) (toReceive st) reg (timers st) (now st), out)
  end.

(** A timer fires: its closure runs on the store it captured. *)
Definition fire (tm : timer) (st : state) : state * list emission :=
  match captured tm with
  | ToSend =>
      let '(s, out) := Users.expire (body tm) (toSend st) in
      (mk s (toReceive st) (registry st) (timers st) (now st), out)
  | ToReceive =>
      let '(s, out) := Users.expire (body tm) (toReceive st) in
      (mk (toSend st) s (registry st) (timers st) (now st), out)
  end.

(** The timers due at instant [t] fire, oldest first; the others stay
    pending. Every timer has the same delay, so the order in which they were
    scheduled is the order of their deadlines. *)
Fixpoint fire_due (t : N) (pending : list timer) (st : state)
    : state * list timer * list emission :=
  match pending with
  | [] => (st, [], [])
  | tm :: rest =>
      if deadline tm <=? t then
        let '(st1, out1) := fire tm st in
        let '(st2, keep, out2) := fire_due t rest st1 in
        (st2, keep, out1 ++ out2)
      else
        let '(st2, keep, out2) := fire_due t rest st in
        (st2, tm :: keep, out2)
  end.

(** [dt] milliseconds pass with no event from any socket. *)
Definition elapse (dt : N) (st : state) : state * list emission :=
  let t := now st + dt in
  let '(st1, keep, out) := fire_due t (timers st) st in
  (mk (toSend st1) (toReceive st1) (registry st1) keep t, out).

(** What the event loop does next: deliver an event, or let time pass. *)
Inductive action :=
  | Deliver (i : input)
  | Elapse (dt : N).

Definition step (a : action) (st : state) : state * list emission :=
  match a with
  | Deliver i => listen i st
  | Elapse dt => elapse dt st
  end.

Fixpoint run (acts : list action) (st : state) : state * list emission :=
  match acts with
  | [] => (st, [])
  | a :: rest =>
      let '(st1, out1) := step a st in
      let '(st2, out2) := run rest st1 in
      (st2, out1 ++ out2)
  end.

(** The states the handlers can be in. *)
Inductive reachable : state -> Prop :=
  | reachable_initial : reachable initial
  | reachable_step a st : reachable st -> reachable (step a st).1.

(** The store of a pool. *)
Definition waiting (r : pool) (st : state) : Users.store :=
  match r with
  | ToSend => toSend st
  | ToReceive => toReceive st
  end.

(** Every entry of a pool is stored under its own [id]. *)
Definition keyed_by_id (s : Users.store) : Prop :=
  ∀ k u, s !! k = Some u -> UserData.id u = k.

(** The shape of [paired._connections]: every key refers to a connection
    object between two different identities, the key is one of them, and
    both identities are keys of that same object. *)
Definition registry_ok (p : paired.t) : Prop :=
  ∀ k ref, paired._connections p !! k = Some ref ->
    ∃ con, paired.heap p !! ref = Some con ∧
      UserData.id (Connection.sender con)
        ≠ UserData.id (Connection.receiver con) ∧
      (k = UserData.id (Connection.sender con) ∨
       k = UserData.id (Connection.receiver con)) ∧
      paired._connections p !! UserData.id (Connection.sender con) = Some ref ∧
      paired._connections p !! UserData.id (Connection.receiver con) = Some ref.

(** Pending timers are due in the future and carry the pairing-failed
    callback. *)
Definition timers_ok (st : state) : Prop :=
  ∀ tm, tm ∈ timers st ->
    now st < deadline tm ∧ Users.callback (body tm) = notifyPairFailed.

Record invariant (st : state) : Prop := mkInvariant {
  inv_toSend : keyed_by_id (toSend st);
  inv_toReceive : keyed_by_id (toReceive st);
  inv_registry : registry_ok (registry st);
  inv_timers : timers_ok st
}.

(** The pool a pairing request joins on a miss, and the identity it uses. *)
Definition joins (i : input) : option (pool * N) :=
  match i with
  | pairToSend _ id _ _ => Some (ToSend, id)
  | pairToReceive _ id _ => Some (ToReceive, id)
  | _ => None
  end.

(** The candidate a pairing request is offered by [pickUpon]. *)
Definition candidate (i : input) (st : state) : option UserData.t :=
  match i with
  | pairToSend socket id geo fileInfo =>
      Users.pickUpon (sending_user socket id geo fileInfo)
        (Users.clear id (toReceive st))
  | pairToReceive socket id geo =>
      Users.pickUpon (receiving_user socket id geo)
        (Users.clear id (toSend st))
  | _ => None
  end.

(** An action that leaves identity [P] alone: it is not an event of [P]'s
    own, and it is not a pairing request that is matched with [P]. *)
Definition leaves_alone (P : N) (a : action) (st : state) : Prop :=
  match a with
  | Elapse _ => True
  | Deliver (disconnect assignedID) => assignedID ≠ P
  | Deliver (confirmFailed _) | Deliver (confirm _ _) => True
  | Deliver i =>
      (∀ r, joins i ≠ Some (r, P)) ∧
      UserData.id <$> candidate i st ≠ Some P
  end.

Fixpoint undisturbed (P : N) (acts : list action) (st : state) : Prop :=
  match acts with
  | [] => True
  | a :: rest => leaves_alone P a st ∧ undisturbed P rest (step a st).1
  end.

(** Identity [P] waits in pool [r] (and in no other), with a pending timer
    of that pool for [P] due by [D]. *)
Definition still_waiting (r : pool) (P D : N) (st : state) : Prop :=
  is_Some (waiting r st !! P) ∧
  (∀ r', r' ≠ r -> waiting r' st !! P = None) ∧
  ∃ tm, tm ∈ timers st ∧ captured tm = r ∧ Users.theID (body tm) = P ∧
        deadline tm <= D.

(** Identity [P] waits in no pool. *)
Definition gone (P : N) (st : state) : Prop :=
  ∀ r, waiting r st !! P = None.

(** The time a run takes. *)
Fixpoint duration (acts : list action) : N :=
  match acts with
  | [] => 0
  | Elapse dt :: rest => dt + duration rest
  | Deliver _ :: rest => duration rest
  end.

End Handlers.

(** ** The gateway: socket ids and the session counter *)

Module Gateway.

(** [var socketID = 0;] next to the state of the handlers. *)
Record server := mk {
  socketID : N;
  handlers : Handlers.state
}.

Definition start : server := mk 0 Handlers.initial.





End Gateway.

(** ** utils.js *)

From Stdlib Require Import Ascii.

Module xs.

(** [encodeDict(dict)]: [dict] is given by its properties in the order of
    [for (var k in dict)], with the values as the strings [encodeURIComponent]
    makes of them; [encodeURIComponent] itself is a parameter. *)
Definition encodeDict (encodeURIComponent : string -> string)
    (dict : list (string * string)) : string :=
  String.concat "&"
    (map (λ kv, encodeURIComponent kv.1 +:+ "=" +:+ encodeURIComponent kv.2)
       dict).

(** [var src] of [randomKey]. *)
Definition src : string :=
  "ABCDEFGHIJKLMNOPQRSTUVWXYZ" +:+ "abcdefghijklmnopqrstuvwxyz"
  +:+ "0123456789".

(** [s.charAt(i)]: the empty string when [i] is out of range. *)
Definition charAt (i : nat) (s : string) : string :=
  match String.get i s with
  | Some c => String c ""
  | None => ""
  end.

(** The loop of [randomKey], from iteration [i] on; [random i] is the value
    of [Math.floor(Math.random() * src.length)] at iteration [i]. *)
Fixpoint pushes (count i : nat) (random : nat -> nat) : list string :=
  match count with
  | O => []
  | S count' => charAt (random i) src :: pushes count' (S i) random
  end.

(** [randomKey(len)]: [if (!len) len = 16;], the loop, [cs.join('')]. *)
Definition randomKey (len : option N) (random : nat -> nat) : string :=
  let len :=
    match len with
    | Some n => if truthy len then n else 16
    | None => 16
    end in
  String.concat "" (pushes (N.to_nat len) 0 random).

End xs.

(** The characters of a string. *)
Fixpoint chars (s : string) : list Ascii.ascii :=
  match s with
  | EmptyString => []
  | String c rest => c :: chars rest
  end.

(** The separators of a query string. *)
Definition amp : Ascii.ascii := "&"%char.
Definition equals : Ascii.ascii := "="%char.

(** An ASCII letter or digit. *)
Definition is_alnum (c : Ascii.ascii) : bool :=
  let n := Ascii.N_of_ascii c in
  ((65 <=? n) && (n <=? 90)) || ((97 <=? n) && (n <=? 122))
  || ((48 <=? n) && (n <=? 57)).

(** An encoder that escapes the separators of a query string the way
    [encodeURIComponent] does, for the examples. *)
Fixpoint escape (s : string) : string :=
  match s with
  | EmptyString => EmptyString
  | String c rest =>
      (if Ascii.eqb c "&"%char then "%26"
       else if Ascii.eqb c "="%char then "%3D"
       else if Ascii.eqb c "%"%char then "%25"
       else String c "") +:+ escape rest
  end.

(** ** Observations *)

(** A peer without geolocation or file, for the examples. *)
Definition peer (n : N) : UserData.t :=
  UserData.mk n (mkSocket n "127.0.0.1" 80) "127.0.0.1" 80
    None None None None None.

(** How many times the notification [e] was sent to identity [P]. *)
Definition received (P : N) (e : event) (out : list emission) : nat :=
  length (filter (λ m, UserData.id (to m) = P ∧ what m = e) out).

(** The entries of both pools never share an identity. *)
Definition disjoint_pools (st : Handlers.state) : Prop :=
  ∀ k, Handlers.toSend st !! k = None ∨ Handlers.toReceive st !! k = None.

(** Every waiting entry has a pending timer of its pool, due within
    [TIMEOUT]. *)
Definition covered (st : Handlers.state) : Prop :=
  ∀ r k, is_Some (Handlers.waiting r st !! k) ->
    ∃ tm, tm ∈ Handlers.timers st ∧ Handlers.captured tm = r ∧
          Users.theID (Handlers.body tm) = k ∧
          Handlers.deadline tm <= Handlers.now st + TIMEOUT.

(** The status of a connection object of the handlers follows its flags. *)
Definition status_follows_flags (con : Handlers.Connection.t) : Prop :=
  Handlers.Connection.status con =
    if Handlers.Connection.senderConfirmed con
       && Handlers.Connection.receiverConfirmed con
    then SENDING else INIT.

(** The pending timers made for identity [P]. *)
Definition pending (P : N) (timers : list Handlers.timer) : nat :=
  length (filter (λ tm, Users.theID (Handlers.body tm) = P) timers).

(** The pairing requests of identity [P] in a run that find no candidate,
    that is the calls of [addTillExpire] for [P]. *)
Fixpoint insertions (P : N) (acts : list Handlers.action)
    (st : Handlers.state) : nat :=
  match acts with
  | [] => 0
  | a :: rest =>
      (match a with
       | Handlers.Deliver i =>
           match Handlers.joins i, Handlers.candidate i st with
           | Some (_, id), None => if decide (id = P) then 1 else 0
           | _, _ => 0
           end
       | Handlers.Elapse _ => 0
       end + insertions P rest (Handlers.step a st).1)%nat
  end.


(** * Properties *)

(** ** The waiting pool *)

Section WaitingPool.

Implicit Types (s : Users.store) (u : UserData.t).

Lemma enumerate_perm s : Users.enumerate s ≡ₚ (map_to_list s).*1.
Proof. apply merge_sort_Permutation. Qed.

Lemma enumerate_elem s uid : uid ∈ Users.enumerate s ↔ is_Some (s !! uid).
Proof.
  rewrite enumerate_perm, list_elem_of_fmap. split.
  - intros [[k u] [-> Hin]]. apply elem_of_map_to_list in Hin. by exists u.
  - intros [u Hu]. exists (uid, u). split; [done|].
    by apply elem_of_map_to_list.
Qed.

Lemma enumerate_nil s : Users.enumerate s = [] ↔ s = ∅.
Proof.
  split.
  - intros Hnil. apply map_empty. intros k.
    destruct (s !! k) as [u|] eqn:Hk; [|done].
    assert (k ∈ Users.enumerate s) as Hin by (apply enumerate_elem; eauto).
    rewrite Hnil in Hin. by apply elem_of_nil in Hin.
  - intros ->. done.
Qed.

(** The keys are visited in ascending order. *)
Lemma enumerate_sorted s : Sorted N.le (Users.enumerate s).
Proof.
  apply Sorted_merge_sort. intros x y. lia.
Qed.

Lemma pickUpon_Some base s u :
  Users.pickUpon base s = Some u ->
  ∃ uid, head (Users.enumerate s) = Some uid ∧ s !! uid = Some u.
Proof.
  unfold Users.pickUpon. destruct (Users.enumerate s) as [|uid l]; [done|].
  intros Hu. by exists uid.
Qed.

Lemma pickUpon_None base s : Users.pickUpon base s = None ↔ s = ∅.
Proof.
  rewrite <- enumerate_nil. unfold Users.pickUpon.
  destruct (Users.enumerate s) as [|uid l] eqn:He; [done|].
  split; [|done]. intros Hnone.
  assert (uid ∈ Users.enumerate s) as Hin by (rewrite He; left).
  apply enumerate_elem in Hin as [u Hu]. congruence.
Qed.

End WaitingPool.

(** ** Pairs: the registry of the data models *)

Section PairsRegistry.

Implicit Types (p : Pairs.t) (con : Connection.t) (u : UserData.t).

Lemma Pairs_clear_unresolved p conID fromUserID callback :
  Pairs._connections p !! conID = None ->
  Pairs.clear conID fromUserID callback p = Normal (p, []).
Proof. intros Hnone. unfold Pairs.clear. by rewrite Hnone. Qed.

Lemma Pairs_confirm_unresolved p conID userID :
  Pairs._connections p !! conID = None ->
  Pairs.confirm conID userID p = (p, false).
Proof. intros Hnone. unfold Pairs.confirm. by rewrite Hnone. Qed.

(** [clear] with a truthy [fromUserID] and a callback: the callback is
    called once, on the participant of the other role. *)
Lemma Pairs_clear_notifies p conID con fromUserID cb :
  Pairs._connections p !! conID = Some con ->
  fromUserID ≠ 0 ->
  Pairs.clear conID (Some fromUserID) (Some cb) p =
    Normal (Pairs.mk (Pairs.connectionID p)
              (delete conID (Pairs._connections p))
              (delete (UserData.id (Connection.receiver con))
                 (delete (UserData.id (Connection.sender con))
                    (Pairs._indices p))),
            cb (if decide (fromUserID = UserData.id (Connection.sender con))
                then Connection.receiver con else Connection.sender con)).
Proof.
  intros Hcon Hnz. unfold Pairs.clear. rewrite Hcon. simpl.
  apply N.eqb_neq in Hnz. rewrite Hnz. simpl.
  destruct (decide (Some fromUserID = Some (UserData.id (Connection.sender con))))
    as [Heq|Hne];
    destruct (decide (fromUserID = UserData.id (Connection.sender con)))
    as [Heq'|Hne']; try done; congruence.
Qed.

Lemma Pairs_confirm_stored p conID userID con :
  Pairs._connections p !! conID = Some con ->
  Pairs.confirm conID userID p =
    let con' :=
      if decide (UserData.id (Connection.sender con) = userID)
      then Connection.set_senderConfirmed true con
      else Connection.set_receiverConfirmed true con in
    (Pairs.mk (Pairs.connectionID p)
       (<[conID := con']> (Pairs._connections p)) (Pairs._indices p),
     Connection.senderConfirmed con' && Connection.receiverConfirmed con').
Proof. intros Hcon. unfold Pairs.confirm. by rewrite Hcon. Qed.

(** What [add] stores. *)
Lemma Pairs_add_stores p sender receiver :
  let '(p', conID) := Pairs.add sender receiver p in
  conID = Pairs.connectionID p + 1 ∧
  Pairs.connectionID p' = conID ∧
  Pairs._connections p' !! conID =
    Some (Connection.mk conID sender false receiver false INIT) ∧
  Pairs._indices p' !! UserData.id sender = Some conID ∧
  Pairs._indices p' !! UserData.id receiver = Some conID.
Proof.
  simpl. repeat split.
  - apply lookup_insert_eq.
  - destruct (decide (UserData.id receiver = UserData.id sender)) as [->|Hne].
    + apply lookup_insert_eq.
    + rewrite lookup_insert_ne by done. apply lookup_insert_eq.
  - apply lookup_insert_eq.
Qed.

(** The identifier [add] hands out is above every identifier in use. *)
Lemma ids_bounded_reachable p : Pairs.reachable p -> Pairs.ids_bounded p.
Proof.
  induction 1 as [|sender receiver p _ IH|conID userID p _ IH
                  |conID fromUserID callback p p' out _ IH Hclear].
  - intros c con Hc. simpl in Hc. by rewrite lookup_empty in Hc.
  - intros c con. simpl.
    destruct (decide (c = Pairs.connectionID p + 1)) as [->|Hne].
    + rewrite lookup_insert_eq. intros [= <-]. simpl. split; [lia|done].
    + rewrite lookup_insert_ne by done. intros Hc.
      destruct (IH c con Hc). split; [lia|done].
  - intros c con. unfold Pairs.confirm.
    destruct (Pairs._connections p !! conID) as [con0|] eqn:Hcon0; simpl;
      [|apply IH].
    destruct (decide (c = conID)) as [->|Hne].
    + rewrite lookup_insert_eq. intros [= <-].
      destruct (IH conID con0 Hcon0) as [Hle Hid]. split; [done|].
      by destruct (decide _).
    + rewrite lookup_insert_ne by done. apply IH.
  - unfold Pairs.clear in Hclear.
    destruct (Pairs._connections p !! conID) as [con0|] eqn:Hcon0.
    + destruct (truthy fromUserID); [destruct callback|];
        simplify_eq; intros c con; simpl;
        (destruct (decide (c = conID)) as [->|Hne];
         [by rewrite lookup_delete_eq
         |rewrite lookup_delete_ne by done; apply IH]).
    + by simplify_eq.
Qed.

(** An index entry always names a stored connection in which the key
    takes part. *)
Lemma index_sound_reachable p : Pairs.reachable p -> Pairs.index_sound p.
Proof.
  intros Hreach. pose proof (ids_bounded_reachable p Hreach) as Hb.
  induction Hreach as [|sender receiver p Hp IH|conID userID p Hp IH
                  |conID fromUserID callback p p' out Hp IH Hclear].
  - intros k c Hk. simpl in Hk. by rewrite lookup_empty in Hk.
  - specialize (IH (ids_bounded_reachable p Hp)).
    pose proof (ids_bounded_reachable p Hp) as Hbp.
    intros k c. simpl.
    destruct (decide (k = UserData.id receiver)) as [->|Hr].
    { rewrite lookup_insert_eq. intros [= <-]. rewrite lookup_insert_eq.
      eexists; split; [done|]. simpl. by right. }
    rewrite lookup_insert_ne by done.
    destruct (decide (k = UserData.id sender)) as [->|Hs].
    { rewrite lookup_insert_eq. intros [= <-]. rewrite lookup_insert_eq.
      eexists; split; [done|]. simpl. by left. }
    rewrite lookup_insert_ne by done.
    rewrite !lookup_delete_ne by done. intros Hk.
    destruct (IH k c Hk) as (con & Hcon & Hpart).
    exists con. split; [|done].
    rewrite lookup_insert_ne; [done|].
    destruct (Hbp c con Hcon). lia.
  - specialize (IH (ids_bounded_reachable p Hp)).
    intros k c. unfold Pairs.confirm.
    destruct (Pairs._connections p !! conID) as [con0|] eqn:Hcon0; simpl;
      [|apply IH].
    intros Hk. destruct (IH k c Hk) as (con & Hcon & Hpart).
    destruct (decide (c = conID)) as [->|Hne].
    + rewrite lookup_insert_eq. eexists; split; [done|].
      assert (con = con0) as -> by congruence.
      by destruct (decide _).
    + rewrite lookup_insert_ne by done. eauto.
  - specialize (IH (ids_bounded_reachable p Hp)).
    unfold Pairs.clear in Hclear.
    destruct (Pairs._connections p !! conID) as [con0|] eqn:Hcon0;
      [|by simplify_eq].
    assert (p' = Pairs.mk (Pairs.connectionID p)
                   (delete conID (Pairs._connections p))
                   (delete (UserData.id (Connection.receiver con0))
                      (delete (UserData.id (Connection.sender con0))
                         (Pairs._indices p)))) as ->.
    { destruct (truthy fromUserID); [destruct callback|]; by simplify_eq. }
    intros k c. simpl.
    destruct (decide (k = UserData.id (Connection.receiver con0))) as [->|Hr];
      [by rewrite lookup_delete_eq|].
    rewrite lookup_delete_ne by done.
    destruct (decide (k = UserData.id (Connection.sender con0))) as [->|Hs];
      [by rewrite lookup_delete_eq|].
    rewrite lookup_delete_ne by done. intros Hk.
    destruct (IH k c Hk) as (con & Hcon & Hpart).
    exists con. split; [|done].
    rewrite lookup_delete_ne; [done|].
    intros ->. assert (con = con0) as -> by congruence.
    by destruct Hpart.
Qed.

End PairsRegistry.

(** ** paired: the registry of the handlers *)

Section PairedRegistry.

Implicit Types (p : Handlers.paired.t) (con : Handlers.Connection.t).

Lemma paired_clear_unresolved p userID :
  Handlers.paired._connections p !! userID = None ->
  Handlers.paired.clear userID p = (p, []).
Proof.
  intros Hnone. unfold Handlers.paired.clear, Handlers.paired.deref.
  by rewrite Hnone.
Qed.

Lemma paired_confirm_unresolved p myID partnerID :
  Handlers.paired._connections p !! myID = None ∨
  Handlers.paired._connections p !! partnerID = None ->
  Handlers.paired.confirm myID partnerID p = (p, []).
Proof.
  intros [Hnone|Hnone]; unfold Handlers.paired.confirm; rewrite Hnone;
    [done|]. by destruct (Handlers.paired._connections p !! myID).
Qed.

Lemma paired_clear_resolved p userID ref con :
  Handlers.paired._connections p !! userID = Some ref ->
  Handlers.paired.heap p !! ref = Some con ->
  Handlers.paired.clear userID p =
    (Handlers.paired.mk
       (delete (UserData.id (Handlers.Connection.receiver con))
          (delete (UserData.id (Handlers.Connection.sender con))
             (Handlers.paired._connections p)))
       (Handlers.paired.heap p),
     if decide (userID = UserData.id (Handlers.Connection.sender con))
     then [Emit (Handlers.Connection.receiver con)
             (betrayedSending (UserData.id (Handlers.Connection.sender con)))]
     else [Emit (Handlers.Connection.sender con)
             (betrayedReceiving
                (UserData.id (Handlers.Connection.receiver con)))]).
Proof.
  intros Hk Hh. unfold Handlers.paired.clear, Handlers.paired.deref.
  by rewrite Hk, Hh.
Qed.

Lemma paired_clear_heap p userID :
  Handlers.paired.heap (Handlers.paired.clear userID p).1 =
  Handlers.paired.heap p.
Proof.
  unfold Handlers.paired.clear.
  by destruct (Handlers.paired.deref userID p).
Qed.

(** [clear] only removes keys. *)
Lemma paired_clear_lookup p userID k ref :
  Handlers.paired._connections (Handlers.paired.clear userID p).1 !! k
    = Some ref ->
  Handlers.paired._connections p !! k = Some ref.
Proof.
  unfold Handlers.paired.clear.
  destruct (Handlers.paired.deref userID p) as [con|]; simpl; [|done].
  intros Hk. apply lookup_delete_Some in Hk as [_ Hk].
  by apply lookup_delete_Some in Hk as [_ Hk].
Qed.

Lemma paired_clear_ok p userID :
  Handlers.registry_ok p ->
  Handlers.registry_ok (Handlers.paired.clear userID p).1 ∧
  Handlers.paired._connections (Handlers.paired.clear userID p).1 !! userID
    = None.
Proof.
  intros Hok.
  destruct (Handlers.paired._connections p !! userID) as [ref|] eqn:Hk;
    [|by rewrite paired_clear_unresolved].
  destruct (Hok userID ref Hk) as (con & Hh & Hdist & Hpart & Hs & Hr).
  rewrite (paired_clear_resolved p userID ref con Hk Hh). simpl. split.
  - intros k' ref' Hk'. simpl in Hk'.
    apply lookup_delete_Some in Hk' as [Hner Hk'].
    apply lookup_delete_Some in Hk' as [Hnes Hk'].
    destruct (Hok k' ref' Hk') as (con' & Hh' & Hdist' & Hpart' & Hs' & Hr').
    assert (ref' ≠ ref) as Hneref.
    { intros ->. assert (con' = con) as -> by congruence.
      destruct Hpart'; congruence. }
    exists con'. simpl. repeat split; try done.
    + rewrite !lookup_delete_ne; [done| |]; intros Heq;
        rewrite <- Heq in Hs'; congruence.
    + rewrite !lookup_delete_ne; [done| |]; intros Heq;
        rewrite <- Heq in Hr'; congruence.
  - destruct Hpart as [->| ->].
    + destruct (decide (UserData.id (Handlers.Connection.receiver con)
                        = UserData.id (Handlers.Connection.sender con)))
        as [Heq|Hne]; [by rewrite Heq, lookup_delete_eq|].
      rewrite lookup_delete_ne by done. by rewrite lookup_delete_eq.
    + by rewrite lookup_delete_eq.
Qed.

(** What [add] leaves under the two identities: one fresh connection
    object, unconfirmed and in status INIT. *)
Lemma paired_add_stores p sender receiver :
  let p' := (Handlers.paired.add sender receiver p).1 in
  let ref := length (Handlers.paired.heap p) in
  Handlers.paired._connections p' !! UserData.id sender = Some ref ∧
  Handlers.paired._connections p' !! UserData.id receiver = Some ref ∧
  Handlers.paired.heap p' =
    Handlers.paired.heap p
      ++ [Handlers.Connection.mk sender false receiver false INIT].
Proof.
  unfold Handlers.paired.add.
  pose proof (paired_clear_heap p (UserData.id sender)) as H1.
  destruct (Handlers.paired.clear (UserData.id sender) p) as [p1 out1].
  pose proof (paired_clear_heap p1 (UserData.id receiver)) as H2.
  destruct (Handlers.paired.clear (UserData.id receiver) p1) as [p2 out2].
  simpl in *. rewrite H2, H1. repeat split.
  - destruct (decide (UserData.id receiver = UserData.id sender)) as [->|Hne].
    + apply lookup_insert_eq.
    + rewrite lookup_insert_ne by done. apply lookup_insert_eq.
  - apply lookup_insert_eq.
Qed.

Lemma paired_add_ok p sender receiver :
  Handlers.registry_ok p ->
  UserData.id sender ≠ UserData.id receiver ->
  Handlers.registry_ok (Handlers.paired.add sender receiver p).1.
Proof.
  intros Hok Hdist. unfold Handlers.paired.add.
  destruct (paired_clear_ok p (UserData.id sender) Hok) as [Hok1 Hs1].
  pose proof (paired_clear_heap p (UserData.id sender)) as Hh1.
  destruct (Handlers.paired.clear (UserData.id sender) p) as [p1 out1].
  simpl in Hok1, Hs1, Hh1.
  destruct (paired_clear_ok p1 (UserData.id receiver) Hok1) as [Hok2 Hr2].
  pose proof (paired_clear_heap p1 (UserData.id receiver)) as Hh2.
  pose proof (paired_clear_lookup p1 (UserData.id receiver)
                (UserData.id sender)) as Hs2.
  destruct (Handlers.paired.clear (UserData.id receiver) p1) as [p2 out2].
  simpl in Hok2, Hr2, Hh2, Hs2. simpl.
  assert (Handlers.paired._connections p2 !! UserData.id sender = None)
    as Hs2'.
  { destruct (Handlers.paired._connections p2 !! UserData.id sender)
      as [x|] eqn:Hx; [|done]. specialize (Hs2 x eq_refl). congruence. }
  intros k ref. simpl.
  destruct (decide (k = UserData.id receiver)) as [->|Hkr].
  { rewrite lookup_insert_eq. intros [= <-]. eexists. split.
    - by apply list_lookup_middle.
    - simpl. repeat split; try done; [by right| |].
      + rewrite lookup_insert_ne by done. apply lookup_insert_eq.
      + apply lookup_insert_eq. }
  rewrite lookup_insert_ne by done.
  destruct (decide (k = UserData.id sender)) as [->|Hks].
  { rewrite lookup_insert_eq. intros [= <-]. eexists. split.
    - by apply list_lookup_middle.
    - simpl. repeat split; try done; [by left| |].
      + rewrite lookup_insert_ne by done. apply lookup_insert_eq.
      + apply lookup_insert_eq. }
  rewrite lookup_insert_ne by done. intros Hk.
  destruct (Hok2 k ref Hk) as (con & Hh & Hd & Hpart & Hs & Hr).
  exists con. repeat split; try done.
  - by apply lookup_app_l_Some.
  - rewrite !lookup_insert_ne; [done| |]; intros Heq;
      rewrite <- Heq in Hs; congruence.
  - rewrite !lookup_insert_ne; [done| |]; intros Heq;
      rewrite <- Heq in Hr; congruence.
Qed.

Lemma paired_confirm_resolved p myID partnerID ref ref' con :
  Handlers.paired._connections p !! myID = Some ref ->
  Handlers.paired._connections p !! partnerID = Some ref' ->
  Handlers.paired.heap p !! ref = Some con ->
  Handlers.paired.confirm myID partnerID p =
    let sender := Handlers.Connection.sender con in
    let receiver := Handlers.Connection.receiver con in
    let sc :=
      if decide (UserData.id sender = myID) then true
      else Handlers.Connection.senderConfirmed con in
    let rc :=
      if decide (UserData.id sender = myID)
      then Handlers.Connection.receiverConfirmed con else true in
    if sc && rc then
      (Handlers.paired.mk (Handlers.paired._connections p)
         (<[ref := Handlers.Connection.mk sender sc receiver rc SENDING]>
            (Handlers.paired.heap p)),
       [Emit sender (startSending (UserData.id sender) (UserData.id receiver));
        Emit receiver (startSending (UserData.id sender) (UserData.id receiver))])
    else
      (Handlers.paired.mk (Handlers.paired._connections p)
         (<[ref := Handlers.Connection.mk sender sc receiver rc
                     (Handlers.Connection.status con)]>
            (Handlers.paired.heap p)),
       []).
Proof.
  intros Hk Hk' Hh. unfold Handlers.paired.confirm.
  rewrite Hk, Hk', Hh. simpl.
  by destruct (decide (UserData.id (Handlers.Connection.sender con) = myID)).
Qed.

Lemma paired_confirm_ok p myID partnerID :
  Handlers.registry_ok p ->
  Handlers.registry_ok (Handlers.paired.confirm myID partnerID p).1.
Proof.
  intros Hok.
  destruct (Handlers.paired._connections p !! myID) as [ref|] eqn:Hk;
    [|by rewrite paired_confirm_unresolved; [|left]].
  destruct (Handlers.paired._connections p !! partnerID) as [ref'|] eqn:Hk';
    [|by rewrite paired_confirm_unresolved; [|right]].
  destruct (Hok myID ref Hk) as (con & Hh & _).
  rewrite (paired_confirm_resolved p myID partnerID ref ref' con Hk Hk' Hh).
  assert (ref < length (Handlers.paired.heap p))%nat as Hlt
    by (by eapply lookup_lt_Some).
  cbv zeta.
  match goal with |- context [if ?b then _ else _] => destruct b end;
    intros k r Hkr; simpl in Hkr;
    destruct (Hok k r Hkr) as (con' & Hh' & Hd' & Hpart' & Hs' & Hr');
    simpl;
    (destruct (decide (r = ref)) as [->|Hne];
     [assert (con' = con) as -> by congruence;
      eexists; split; [by apply list_lookup_insert_eq|done]
     |exists con'; split; [by rewrite list_lookup_insert_ne|done]]).
Qed.

End PairedRegistry.

(** ** The handlers: invariants of the reachable states *)

Section HandlersInvariant.

Implicit Types (st : Handlers.state) (s : Users.store) (u : UserData.t).

Lemma keyed_by_id_empty : Handlers.keyed_by_id ∅.
Proof. intros k u Hk. by rewrite lookup_empty in Hk. Qed.

Lemma keyed_by_id_clear s userID :
  Handlers.keyed_by_id s -> Handlers.keyed_by_id (Users.clear userID s).
Proof.
  intros Hs k u Hk. unfold Users.clear in Hk.
  apply lookup_delete_Some in Hk as [_ Hk]. by apply Hs.
Qed.

Lemma keyed_by_id_insert s u :
  Handlers.keyed_by_id s -> Handlers.keyed_by_id (<[UserData.id u := u]> s).
Proof.
  intros Hs k u' Hk. apply lookup_insert_Some in Hk as [[<- <-]|[_ Hk]];
    [done|by apply Hs].
Qed.

Lemma keyed_by_id_expire s c :
  Handlers.keyed_by_id s -> Handlers.keyed_by_id (Users.expire c s).1.
Proof.
  intros Hs. unfold Users.expire. destruct (s !! Users.theID c); simpl;
    [by apply keyed_by_id_clear|done].
Qed.

(** The candidate offered after the requester's own entry is cleared is
    another identity. *)
Lemma pickUpon_clear_other s base x partner :
  Handlers.keyed_by_id s ->
  Users.pickUpon base (Users.clear x s) = Some partner ->
  UserData.id partner ≠ x ∧ s !! UserData.id partner = Some partner.
Proof.
  intros Hs Hpick. apply pickUpon_Some in Hpick as (uid & _ & Hu).
  unfold Users.clear in Hu. apply lookup_delete_Some in Hu as [Hne Hu].
  rewrite (Hs uid partner Hu). done.
Qed.

Lemma fire_frame tm st :
  Handlers.registry (Handlers.fire tm st).1 = Handlers.registry st ∧
  Handlers.timers (Handlers.fire tm st).1 = Handlers.timers st ∧
  Handlers.now (Handlers.fire tm st).1 = Handlers.now st.
Proof.
  unfold Handlers.fire. destruct (Handlers.captured tm);
    destruct (Users.expire _ _); done.
Qed.

Lemma fire_keyed tm st :
  Handlers.keyed_by_id (Handlers.toSend st) ->
  Handlers.keyed_by_id (Handlers.toReceive st) ->
  Handlers.keyed_by_id (Handlers.toSend (Handlers.fire tm st).1) ∧
  Handlers.keyed_by_id (Handlers.toReceive (Handlers.fire tm st).1).
Proof.
  intros Hs Hr. unfold Handlers.fire. destruct (Handlers.captured tm).
  - pose proof (keyed_by_id_expire _ (Handlers.body tm) Hs).
    by destruct (Users.expire _ _).
  - pose proof (keyed_by_id_expire _ (Handlers.body tm) Hr).
    by destruct (Users.expire _ _).
Qed.

Lemma fire_due_frame t pending st :
  Handlers.registry (Handlers.fire_due t pending st).1.1
    = Handlers.registry st ∧
  Handlers.timers (Handlers.fire_due t pending st).1.1
    = Handlers.timers st ∧
  Handlers.now (Handlers.fire_due t pending st).1.1 = Handlers.now st.
Proof.
  revert st. induction pending as [|tm rest IH]; intros st; simpl; [done|].
  destruct (Handlers.deadline tm <=? t).
  - destruct (fire_frame tm st) as (H1 & H2 & H3).
    destruct (Handlers.fire tm st) as [st1 out1]. simpl in *.
    specialize (IH st1).
    destruct (Handlers.fire_due t rest st1) as [[st2 keep] out2].
    simpl in *. destruct IH as (? & ? & ?). repeat split; congruence.
  - specialize (IH st).
    by destruct (Handlers.fire_due t rest st) as [[st2 keep] out2].
Qed.

Lemma fire_due_keyed t pending st :
  Handlers.keyed_by_id (Handlers.toSend st) ->
  Handlers.keyed_by_id (Handlers.toReceive st) ->
  Handlers.keyed_by_id (Handlers.toSend (Handlers.fire_due t pending st).1.1) ∧
  Handlers.keyed_by_id
    (Handlers.toReceive (Handlers.fire_due t pending st).1.1).
Proof.
  revert st. induction pending as [|tm rest IH]; intros st Hs Hr; simpl;
    [done|].
  destruct (Handlers.deadline tm <=? t).
  - destruct (fire_keyed tm st Hs Hr) as [Hs1 Hr1].
    destruct (Handlers.fire tm st) as [st1 out1]. simpl in *.
    specialize (IH st1 Hs1 Hr1).
    by destruct (Handlers.fire_due t rest st1) as [[st2 keep] out2].
  - specialize (IH st Hs Hr).
    by destruct (Handlers.fire_due t rest st) as [[st2 keep] out2].
Qed.

(** The timers that stay pending are those not yet due. *)
Lemma fire_due_keep t pending st tm :
  tm ∈ (Handlers.fire_due t pending st).1.2 ->
  tm ∈ pending ∧ t < Handlers.deadline tm.
Proof.
  revert st. induction pending as [|tm0 rest IH]; intros st; simpl.
  - intros Hin. by apply elem_of_nil in Hin.
  - destruct (Handlers.deadline tm0 <=? t) eqn:Hdue.
    + destruct (Handlers.fire tm0 st) as [st1 out1].
      specialize (IH st1).
      destruct (Handlers.fire_due t rest st1) as [[st2 keep] out2].
      simpl in *. intros Hin. destruct (IH Hin). split; [by right|done].
    + specialize (IH st).
      destruct (Handlers.fire_due t rest st) as [[st2 keep] out2].
      simpl in *. intros Hin. apply elem_of_cons in Hin as [->|Hin].
      * apply N.leb_gt in Hdue. split; [by left|done].
      * destruct (IH Hin). split; [by right|done].
Qed.

Lemma invariant_initial : Handlers.invariant Handlers.initial.
Proof.
  split; simpl.
  - apply keyed_by_id_empty.
  - apply keyed_by_id_empty.
  - intros k ref Hk. simpl in Hk. by rewrite lookup_empty in Hk.
  - intros tm Hin. by apply elem_of_nil in Hin.
Qed.

Lemma timers_ok_schedule st st' r c :
  Handlers.timers_ok st ->
  Users.callback c = Handlers.notifyPairFailed ->
  Handlers.now st' = Handlers.now st ->
  Handlers.timers st' =
    Handlers.timers st
      ++ [Handlers.mkTimer r c (Handlers.now st + TIMEOUT)] ->
  Handlers.timers_ok st'.
Proof.
  intros Hok Hcb Hnow Htm tm. rewrite Htm, Hnow. intros Hin.
  apply elem_of_app in Hin as [Hin|Hin]; [by apply Hok|].
  apply list_elem_of_singleton in Hin as ->. simpl. split; [|done].
  unfold TIMEOUT. lia.
Qed.

Lemma invariant_onPairToReceive socket receiveID geo st :
  Handlers.invariant st ->
  Handlers.invariant (Handlers.onPairToReceive socket receiveID geo st).1.
Proof.
  intros [Hs Hr Hreg Htm]. unfold Handlers.onPairToReceive.
  destruct (Users.pickUpon _ _) as [partner|] eqn:Hpick.
  - apply pickUpon_clear_other in Hpick as [Hne _]; [|done].
    pose proof (paired_add_ok (Handlers.registry st) partner
        (Handlers.receiving_user socket receiveID geo) Hreg Hne) as Hadd.
    destruct (Handlers.paired.add _ _ _) as [reg out']. simpl in *.
    split; simpl; try done.
    + by do 2 apply keyed_by_id_clear.
    + by apply keyed_by_id_clear.
  - simpl. split; simpl.
    + by apply keyed_by_id_clear.
    + apply (keyed_by_id_insert _
               (Handlers.receiving_user socket receiveID geo)).
      by apply keyed_by_id_clear.
    + done.
    + eapply (timers_ok_schedule st _ _ _ Htm);
        [|reflexivity|reflexivity]; reflexivity.
Qed.

Lemma invariant_onPairToSend socket sendID geo fileInfo st :
  Handlers.invariant st ->
  Handlers.invariant (Handlers.onPairToSend socket sendID geo fileInfo st).1.
Proof.
  intros [Hs Hr Hreg Htm]. unfold Handlers.onPairToSend.
  destruct (Users.pickUpon _ _) as [partner|] eqn:Hpick.
  - apply pickUpon_clear_other in Hpick as [Hne _]; [|done].
    pose proof (paired_add_ok (Handlers.registry st)
        (Handlers.sending_user socket sendID geo fileInfo) partner Hreg
        (not_eq_sym Hne)) as Hadd.
    destruct (Handlers.paired.add _ _ _) as [reg out']. simpl in *.
    split; simpl; try done.
    + by apply keyed_by_id_clear.
    + by do 2 apply keyed_by_id_clear.
  - simpl. split; simpl.
    + apply (keyed_by_id_insert _
               (Handlers.sending_user socket sendID geo fileInfo)).
      by apply keyed_by_id_clear.
    + by apply keyed_by_id_clear.
    + done.
    + eapply (timers_ok_schedule st _ _ _ Htm);
        [|reflexivity|reflexivity]; reflexivity.
Qed.

Lemma invariant_listen i st :
  Handlers.invariant st -> Handlers.invariant (Handlers.listen i st).1.
Proof.
  intros Hinv. destruct i as [x|socket x geo|socket x geo fi|x|x y]; simpl.
  - destruct Hinv as [Hs Hr Hreg Htm].
    split; simpl; try done; by apply keyed_by_id_clear.
  - by apply invariant_onPairToReceive.
  - by apply invariant_onPairToSend.
  - destruct Hinv as [Hs Hr Hreg Htm].
    destruct (paired_clear_ok (Handlers.registry st) x Hreg) as [Hok _].
    destruct (Handlers.paired.clear x (Handlers.registry st)) as [reg out].
    by split.
  - destruct Hinv as [Hs Hr Hreg Htm].
    pose proof (paired_confirm_ok (Handlers.registry st) x y Hreg) as Hok.
    destruct (Handlers.paired.confirm x y (Handlers.registry st))
      as [reg out].
    by split.
Qed.

Lemma invariant_elapse dt st :
  Handlers.invariant st -> Handlers.invariant (Handlers.elapse dt st).1.
Proof.
  intros [Hs Hr Hreg Htm]. unfold Handlers.elapse.
  destruct (fire_due_frame (Handlers.now st + dt) (Handlers.timers st) st)
    as (Hreg' & _ & _).
  destruct (fire_due_keyed (Handlers.now st + dt) (Handlers.timers st) st
              Hs Hr) as [Hs' Hr'].
  pose proof (fire_due_keep (Handlers.now st + dt) (Handlers.timers st) st)
    as Hkeep.
  destruct (Handlers.fire_due _ _ _) as [[st1 keep] out]. simpl in *.
  split; simpl; try done.
  - by rewrite Hreg'.
  - intros tm Hin. simpl in *. destruct (Hkeep tm Hin) as [Hin' Hlt].
    split; [done|]. by apply Htm.
Qed.

Lemma invariant_step a st :
  Handlers.invariant st -> Handlers.invariant (Handlers.step a st).1.
Proof.
  destruct a; [apply invariant_listen|apply invariant_elapse].
Qed.

Lemma invariant_reachable st :
  Handlers.reachable st -> Handlers.invariant st.
Proof.
  induction 1; [apply invariant_initial|by apply invariant_step].
Qed.

End HandlersInvariant.

(** ** Candidate selection *)

(** C8. Candidate selection ignores the requesting peer: for every pool and
    any two base users (in particular any two geolocations) [pickUpon]
    returns the same result. The rule is first-available: the result is the
    entry stored under the first enumerated key, so at most one entry, and
    it is "not found" exactly when the pool is empty. [pickUpon] reads the
    store and has no store of its own to return: the pool it is applied to
    is the pool the entry is still found in. *)
Theorem pickUpon_first_available (s : Users.store) (u1 u2 : UserData.t) :
  Users.pickUpon u1 s = Users.pickUpon u2 s ∧
  Users.pickUpon u1 s = (head (Users.enumerate s) ≫= λ uid, s !! uid) ∧
  (Users.pickUpon u1 s = None ↔ s = ∅).
Proof.
  split; [done|]. split; [|apply pickUpon_None].
  unfold Users.pickUpon. by destruct (Users.enumerate s).
Qed.

(** ** Unresolved identifiers *)

(** C6. Confirming or clearing a connection id (for [paired]: a participant
    id) that does not resolve to a stored connection leaves the registry as it
    is, emits nothing and does not throw: [clear] returns, [confirm] returns
    [false] (for [paired]: returns with no notification). *)
Theorem unresolved_is_silent_noop :
  (∀ p conID fromUserID callback,
     Pairs._connections p !! conID = None ->
     Pairs.clear conID fromUserID callback p = Normal (p, [])) ∧
  (∀ p conID userID,
     Pairs._connections p !! conID = None ->
     Pairs.confirm conID userID p = (p, false)) ∧
  (∀ p userID,
     Handlers.paired._connections p !! userID = None ->
     Handlers.paired.clear userID p = (p, [])) ∧
  (∀ p myID partnerID,
     Handlers.paired._connections p !! myID = None ∨
     Handlers.paired._connections p !! partnerID = None ->
     Handlers.paired.confirm myID partnerID p = (p, [])).
Proof.
  repeat split.
  - apply Pairs_clear_unresolved.
  - apply Pairs_confirm_unresolved.
  - apply paired_clear_unresolved.
  - apply paired_confirm_unresolved.
Qed.

Lemma unresolved_is_silent_noop_witness :
  Pairs.clear 7 (Some 3) None Pairs.new = Normal (Pairs.new, []) ∧
  Pairs.confirm 7 3 Pairs.new = (Pairs.new, false) ∧
  Handlers.paired.clear 3 Handlers.paired.empty = (Handlers.paired.empty, []) ∧
  Handlers.paired.confirm 3 4 Handlers.paired.empty
    = (Handlers.paired.empty, []).
Proof.
  destruct unresolved_is_silent_noop as (H1 & H2 & H3 & H4).
  split; [|split; [|split]].
  - apply H1. reflexivity.
  - apply H2. reflexivity.
  - apply H3. reflexivity.
  - apply H4. left. reflexivity.
Defined.

(** ** Confirmation *)

(** The handlers' counterpart of C10: [paired.confirm] called by a key of the
    table other than the sender's id sets [receiverConfirmed]. *)
Lemma paired_confirm_non_sender p myID partnerID ref ref' con :
  Handlers.paired._connections p !! myID = Some ref ->
  Handlers.paired._connections p !! partnerID = Some ref' ->
  Handlers.paired.heap p !! ref = Some con ->
  myID ≠ UserData.id (Handlers.Connection.sender con) ->
  ∃ con',
    Handlers.paired.heap (Handlers.paired.confirm myID partnerID p).1 !! ref
      = Some con' ∧
    Handlers.Connection.receiverConfirmed con' = true ∧
    Handlers.Connection.senderConfirmed con'
      = Handlers.Connection.senderConfirmed con.
Proof.
  intros Hk Hk' Hh Hne.
  rewrite (paired_confirm_resolved p myID partnerID ref ref' con Hk Hk' Hh).
  assert (ref < length (Handlers.paired.heap p))%nat as Hlt
    by (by eapply lookup_lt_Some).
  cbv zeta.
  destruct (decide (UserData.id (Handlers.Connection.sender con) = myID))
    as [Heq|_]; [congruence|].
  rewrite andb_true_r.
  destruct (Handlers.Connection.senderConfirmed con) eqn:Hsc; simpl;
    eexists; (split; [by apply list_lookup_insert_eq|done]).
Qed.

(** C10. For every stored connection, [Pairs.confirm(conID, userID)] with any
    [userID] other than the sender's id, an id of neither participant
    included, sets [receiverConfirmed]: the side is chosen by the comparison
    with the sender's id alone. *)
Theorem Pairs_confirm_non_sender p conID userID con :
  Pairs._connections p !! conID = Some con ->
  userID ≠ UserData.id (Connection.sender con) ->
  Pairs._connections (Pairs.confirm conID userID p).1 !! conID
    = Some (Connection.set_receiverConfirmed true con) ∧
  (Pairs.confirm conID userID p).2 = Connection.senderConfirmed con.
Proof.
  intros Hcon Hne. rewrite (Pairs_confirm_stored p conID userID con Hcon).
  cbv zeta.
  destruct (decide (UserData.id (Connection.sender con) = userID))
    as [Heq|_]; [congruence|].
  simpl. split; [apply lookup_insert_eq|apply andb_true_r].
Qed.

Lemma Pairs_confirm_non_sender_witness :
  let p := (Pairs.add (peer 10) (peer 20) Pairs.new).1 in
  Pairs._connections (Pairs.confirm 1 99 p).1 !! 1
    = Some (Connection.mk 1 (peer 10) false (peer 20) true INIT) ∧
  (Pairs.confirm 1 99 p).2 = false.
Proof.
  apply (Pairs_confirm_non_sender (Pairs.add (peer 10) (peer 20) Pairs.new).1
           1 99 (Connection.mk 1 (peer 10) false (peer 20) false INIT)).
  - reflexivity.
  - simpl. lia.
Defined.

(** ** Abandonment *)

(** C9. Clearing a stored connection with an abandoning peer id notifies the
    participant of the other role whatever the confirmation flags and the
    status are, a doubly confirmed connection in status SENDING included:
    [paired.clear] emits [betrayedSending] to the receiver when the id is the
    sender's and [betrayedReceiving] to the sender otherwise; [Pairs.clear],
    given an id (peer ids are assigned from 1, so the id is truthy) and a
    callback, calls the callback once on the receiver when the id is the
    sender's and on the sender otherwise. Neither reads a flag or the status. *)
Theorem clear_notifies_whatever_the_status :
  (∀ p userID ref sender receiver sc rc status,
     Handlers.paired._connections p !! userID = Some ref ->
     Handlers.paired.heap p !! ref
       = Some (Handlers.Connection.mk sender sc receiver rc status) ->
     (Handlers.paired.clear userID p).2 =
       if decide (userID = UserData.id sender)
       then [Emit receiver (betrayedSending (UserData.id sender))]
       else [Emit sender (betrayedReceiving (UserData.id receiver))]) ∧
  (∀ p conID cid sender receiver sc rc status fromUserID cb,
     Pairs._connections p !! conID
       = Some (Connection.mk cid sender sc receiver rc status) ->
     fromUserID ≠ 0 ->
     ∃ p', Pairs.clear conID (Some fromUserID) (Some cb) p =
       Normal (p', cb (if decide (fromUserID = UserData.id sender)
                       then receiver else sender))).
Proof.
  split.
  - intros p userID ref sender receiver sc rc status Hk Hh.
    by rewrite (paired_clear_resolved p userID ref _ Hk Hh).
  - intros p conID cid sender receiver sc rc status fromUserID cb Hcon Hnz.
    eexists. by rewrite (Pairs_clear_notifies p conID _ fromUserID cb Hcon Hnz).
Qed.

Lemma clear_notifies_whatever_the_status_witness :
  (Handlers.paired.clear 20
     (Handlers.paired.mk {[ 10 := 0%nat; 20 := 0%nat ]}
        [Handlers.Connection.mk (peer 10) true (peer 20) true SENDING])).2
    = [Emit (peer 10) (betrayedReceiving 20)] ∧
  ∃ p', Pairs.clear 1 (Some 10) (Some (λ u, [Emit u (betrayedSending 10)]))
          (Pairs.mk 1
             {[ 1 := Connection.mk 1 (peer 10) true (peer 20) true SENDING ]}
             {[ 10 := 1; 20 := 1 ]})
        = Normal (p', [Emit (peer 20) (betrayedSending 10)]).
Proof.
  destruct clear_notifies_whatever_the_status as [Hpaired HPairs]. split.
  - apply (Hpaired _ 20 0%nat (peer 10) (peer 20) true true SENDING);
      reflexivity.
  - apply (HPairs _ 1 1 (peer 10) (peer 20) true true SENDING 10
             (λ u, [Emit u (betrayedSending 10)])); [reflexivity|lia].
Defined.

(** C7. Clearing a connection notifies only the other participant.
    In every state the handlers can reach, whatever [paired.clear(userID)]
    emits is a single betrayal notification that names [userID] as the
    partner and goes to the other participant of [userID]'s connection, never
    to [userID] itself. For [Pairs.clear] on a stored connection between two
    different identities, called with the id of one of them, the callback is
    called on nobody but the other participant. *)
Theorem clear_notifies_only_the_other :
  (∀ st userID m,
     Handlers.reachable st ->
     m ∈ (Handlers.paired.clear userID (Handlers.registry st)).2 ->
     ∃ con,
       Handlers.paired.deref userID (Handlers.registry st) = Some con ∧
       (Handlers.paired.clear userID (Handlers.registry st)).2 = [m] ∧
       (userID = UserData.id (Handlers.Connection.sender con) ∧
        m = Emit (Handlers.Connection.receiver con) (betrayedSending userID) ∨
        userID = UserData.id (Handlers.Connection.receiver con) ∧
        m = Emit (Handlers.Connection.sender con) (betrayedReceiving userID)) ∧
       UserData.id (to m) ≠ userID) ∧
  (∀ p conID con fromUserID cb,
     Pairs._connections p !! conID = Some con ->
     UserData.id (Connection.sender con)
       ≠ UserData.id (Connection.receiver con) ->
     fromUserID = UserData.id (Connection.sender con) ∨
     fromUserID = UserData.id (Connection.receiver con) ->
     ∃ p' other,
       Pairs.clear conID (Some fromUserID) (Some cb) p
         = Normal (p', if truthy (Some fromUserID) then cb other else []) ∧
       (other = Connection.sender con ∨ other = Connection.receiver con) ∧
       UserData.id other ≠ fromUserID).
Proof.
  split.
  - intros st userID m Hreach Hin.
    pose proof (Handlers.inv_registry st (invariant_reachable st Hreach))
      as Hok.
    destruct (Handlers.paired._connections (Handlers.registry st) !! userID)
      as [ref|] eqn:Hk.
    2:{ rewrite paired_clear_unresolved in Hin by done.
        by apply elem_of_nil in Hin. }
    destruct (Hok userID ref Hk) as (con & Hh & Hdist & Hpart & _).
    rewrite (paired_clear_resolved _ userID ref con Hk Hh) in Hin |- *.
    simpl in Hin |- *. exists con. split.
    { unfold Handlers.paired.deref. by rewrite Hk. }
    destruct (decide (userID = UserData.id (Handlers.Connection.sender con)))
      as [->|Hne]; apply list_elem_of_singleton in Hin as ->.
    + split; [done|]. split; [by left|]. simpl. congruence.
    + destruct Hpart as [->| ->]; [done|].
      split; [done|]. split; [by right|]. simpl. congruence.
  - intros p conID con fromUserID cb Hcon Hdist Hpart.
    destruct (decide (fromUserID = 0)) as [->|Hnz].
    + unfold Pairs.clear. rewrite Hcon. simpl.
      destruct Hpart as [Hp|Hp].
      * eexists _, (Connection.receiver con). split; [done|].
        split; [by right|congruence].
      * eexists _, (Connection.sender con). split; [done|].
        split; [by left|congruence].
    + rewrite (Pairs_clear_notifies p conID con fromUserID cb Hcon Hnz).
      assert (truthy (Some fromUserID) = true) as ->.
      { simpl. by apply N.eqb_neq in Hnz as ->. }
      eexists _, _. split; [done|].
      destruct (decide (fromUserID = UserData.id (Connection.sender con)));
        destruct Hpart; subst; (split; [by auto|congruence]).
Qed.

Lemma reachable_run acts st :
  Handlers.reachable st -> Handlers.reachable (Handlers.run acts st).1.
Proof.
  revert st. induction acts as [|a rest IH]; intros st Hst; simpl; [done|].
  pose proof (Handlers.reachable_step a st Hst) as Hstep.
  destruct (Handlers.step a st) as [st1 out1]. simpl in Hstep.
  specialize (IH st1 Hstep).
  by destruct (Handlers.run rest st1) as [st2 out2].
Qed.

Lemma clear_notifies_only_the_other_witness :
  let st :=
    (Handlers.step
       (Handlers.Deliver
          (Handlers.pairToSend (mkSocket 10 "10.0.0.1" 80) 10 None
             (FileInfo.mk "a.txt" 100)))
       (Handlers.step
          (Handlers.Deliver
             (Handlers.pairToReceive (mkSocket 20 "10.0.0.2" 80) 20 None))
          Handlers.initial).1).1 in
  let sender :=
    Handlers.sending_user (mkSocket 10 "10.0.0.1" 80) 10 None
      (FileInfo.mk "a.txt" 100) in
  let q :=
    Pairs.mk 1 {[ 1 := Connection.mk 1 (peer 10) false (peer 20) false INIT ]}
      {[ 10 := 1; 20 := 1 ]} in
  (∃ con,
     Handlers.paired.deref 20 (Handlers.registry st) = Some con ∧
     (Handlers.paired.clear 20 (Handlers.registry st)).2
       = [Emit sender (betrayedReceiving 20)] ∧
     (20 = UserData.id (Handlers.Connection.sender con) ∧
      Emit sender (betrayedReceiving 20)
        = Emit (Handlers.Connection.receiver con) (betrayedSending 20) ∨
      20 = UserData.id (Handlers.Connection.receiver con) ∧
      Emit sender (betrayedReceiving 20)
        = Emit (Handlers.Connection.sender con) (betrayedReceiving 20)) ∧
     UserData.id (to (Emit sender (betrayedReceiving 20))) ≠ 20) ∧
  (∃ q' other,
     Pairs.clear 1 (Some 20) (Some Handlers.notifyPairFailed) q
       = Normal (q', if truthy (Some 20)
                     then Handlers.notifyPairFailed other else []) ∧
     (other = peer 10 ∨ other = peer 20) ∧
     UserData.id other ≠ 20).
Proof.
  intros st sender q.
  destruct clear_notifies_only_the_other as [Hpaired HPairs]. split.
  - apply (Hpaired st 20 (Emit sender (betrayedReceiving 20))).
    + do 2 apply Handlers.reachable_step. apply Handlers.reachable_initial.
    + vm_compute. left.
  - apply (HPairs q 1 (Connection.mk 1 (peer 10) false (peer 20) false INIT)
             20 Handlers.notifyPairFailed).
    + reflexivity.
    + simpl. lia.
    + right. reflexivity.
Defined.

(** ** Double confirmation *)

(** C5. Double confirmation is commutative. After [paired.add(S, R)] for two
    different identities, confirming S then R and confirming R then S reach
    the same registry, in which the connection is doubly confirmed with
    status SENDING; the first confirm emits nothing and leaves the status
    INIT, the second emits the one pair of [startSending] notifications, to S
    and to R, carrying (senderID, receiverID). [Pairs.confirm], which returns
    the boolean and leaves notifying to its caller, returns [false] for the
    first confirm and [true] for the second in both orders, and reaches the
    same state. *)
Theorem double_confirmation_commutes :
  (∀ p S R,
     UserData.id S ≠ UserData.id R ->
     let p0 := (Handlers.paired.add S R p).1 in
     let start :=
       [Emit S (startSending (UserData.id S) (UserData.id R));
        Emit R (startSending (UserData.id S) (UserData.id R))] in
     let sr1 := Handlers.paired.confirm (UserData.id S) (UserData.id R) p0 in
     let sr2 := Handlers.paired.confirm (UserData.id R) (UserData.id S) sr1.1 in
     let rs1 := Handlers.paired.confirm (UserData.id R) (UserData.id S) p0 in
     let rs2 := Handlers.paired.confirm (UserData.id S) (UserData.id R) rs1.1 in
     sr1.2 = [] ∧ sr2.2 = start ∧ rs1.2 = [] ∧ rs2.2 = start ∧
     Handlers.paired.deref (UserData.id S) sr1.1
       = Some (Handlers.Connection.mk S true R false INIT) ∧
     Handlers.paired.deref (UserData.id R) rs1.1
       = Some (Handlers.Connection.mk S false R true INIT) ∧
     Handlers.paired.deref (UserData.id S) sr2.1
       = Some (Handlers.Connection.mk S true R true SENDING) ∧
     Handlers.paired.deref (UserData.id R) sr2.1
       = Some (Handlers.Connection.mk S true R true SENDING) ∧
     rs2.1 = sr2.1) ∧
  (∀ q S R,
     UserData.id S ≠ UserData.id R ->
     let q0 := (Pairs.add S R q).1 in
     let conID := (Pairs.add S R q).2 in
     let sr1 := Pairs.confirm conID (UserData.id S) q0 in
     let sr2 := Pairs.confirm conID (UserData.id R) sr1.1 in
     let rs1 := Pairs.confirm conID (UserData.id R) q0 in
     let rs2 := Pairs.confirm conID (UserData.id S) rs1.1 in
     sr1.2 = false ∧ sr2.2 = true ∧ rs1.2 = false ∧ rs2.2 = true ∧
     Pairs.get conID sr2.1
       = Some (Connection.mk conID S true R true INIT) ∧
     rs2.1 = sr2.1).
Proof.
  split.
  - intros p S R Hne p0 start.
    destruct (paired_add_stores p S R) as (HS & HR & Hheap).
    fold p0 in HS, HR, Hheap.
    set (ref := length (Handlers.paired.heap p)) in *.
    set (c0 := Handlers.Connection.mk S false R false INIT) in *.
    assert (Handlers.paired.heap p0 !! ref = Some c0) as Hc0.
    { rewrite Hheap. by apply list_lookup_middle. }
    assert (ref < length (Handlers.paired.heap p0))%nat as Hlt
      by (by eapply lookup_lt_Some).
    rewrite (paired_confirm_resolved p0 _ _ ref ref c0 HS HR Hc0).
    rewrite (paired_confirm_resolved p0 _ _ ref ref c0 HR HS Hc0).
    cbv zeta. simpl.
    destruct (decide (UserData.id S = UserData.id S)) as [_|]; [|done].
    destruct (decide (UserData.id S = UserData.id R)) as [|_]; [done|].
    simpl.
    set (h1 := <[ref := Handlers.Connection.mk S true R false INIT]>
                 (Handlers.paired.heap p0)).
    set (h1' := <[ref := Handlers.Connection.mk S false R true INIT]>
                  (Handlers.paired.heap p0)).
    assert (h1 !! ref = Some (Handlers.Connection.mk S true R false INIT))
      as Hh1 by (by apply list_lookup_insert_eq).
    assert (h1' !! ref = Some (Handlers.Connection.mk S false R true INIT))
      as Hh1' by (by apply list_lookup_insert_eq).
    rewrite (paired_confirm_resolved
               (Handlers.paired.mk (Handlers.paired._connections p0) h1)
               _ _ ref ref _ HR HS Hh1).
    rewrite (paired_confirm_resolved
               (Handlers.paired.mk (Handlers.paired._connections p0) h1')
               _ _ ref ref _ HS HR Hh1').
    cbv zeta. simpl.
    destruct (decide (UserData.id S = UserData.id S)) as [_|]; [|done].
    destruct (decide (UserData.id S = UserData.id R)) as [|_]; [done|].
    simpl. unfold Handlers.paired.deref. simpl. rewrite HS, HR.
    subst h1 h1'. rewrite !list_insert_insert_eq.
    rewrite !list_lookup_insert_eq by done. done.
  - intros q S R Hne. simpl. unfold Pairs.confirm, Pairs.get. simpl.
    rewrite !lookup_insert_eq. simpl.
    destruct (decide (UserData.id S = UserData.id S)) as [_|]; [|done].
    destruct (decide (UserData.id S = UserData.id R)) as [|_]; [done|].
    simpl. rewrite !lookup_insert_eq. simpl.
    destruct (decide (UserData.id S = UserData.id S)) as [_|]; [|done].
    destruct (decide (UserData.id S = UserData.id R)) as [|_]; [done|].
    simpl. rewrite !lookup_insert_eq, !insert_insert_eq. done.
Qed.

Lemma double_confirmation_commutes_witness :
  let p0 := (Handlers.paired.add (peer 10) (peer 20) Handlers.paired.empty).1 in
  let q := Pairs.add (peer 10) (peer 20) Pairs.new in
  UserData.id (peer 10) ≠ UserData.id (peer 20) ∧
  (Handlers.paired.confirm 20 10 (Handlers.paired.confirm 10 20 p0).1).2
    = [Emit (peer 10) (startSending 10 20);
       Emit (peer 20) (startSending 10 20)] ∧
  (Pairs.confirm q.2 20 (Pairs.confirm q.2 10 q.1).1).2 = true.
Proof.
  assert (UserData.id (peer 10) ≠ UserData.id (peer 20)) as Hne
    by (simpl; lia).
  destruct double_confirmation_commutes as [Hpaired HPairs].
  split; [exact Hne|]. split.
  - exact (proj1 (proj2
             (Hpaired Handlers.paired.empty (peer 10) (peer 20) Hne))).
  - exact (proj1 (proj2 (HPairs Pairs.new (peer 10) (peer 20) Hne))).
Defined.

(** ** Expiry of an unmatched peer *)

Section Expiry.

Implicit Types (st : Handlers.state) (s : Users.store) (u : UserData.t).
Implicit Types (out : list emission) (r : Handlers.pool).

Lemma received_app P e out1 out2 :
  received P e (out1 ++ out2) = (received P e out1 + received P e out2)%nat.
Proof. unfold received. by rewrite filter_app, length_app. Qed.

Lemma received_nil P e : received P e [] = 0%nat.
Proof. done. Qed.

Lemma received_other_event P e out :
  Forall (λ m, what m ≠ e) out -> received P e out = 0%nat.
Proof.
  induction 1 as [|m out Hm _ IH]; [done|].
  unfold received in *. rewrite filter_cons_False; [done|]. by intros [_ ?].
Qed.

Lemma received_other_target P e out :
  Forall (λ m, UserData.id (to m) ≠ P) out -> received P e out = 0%nat.
Proof.
  induction 1 as [|m out Hm _ IH]; [done|].
  unfold received in *. rewrite filter_cons_False; [done|]. by intros [? _].
Qed.

Lemma paired_clear_no_pairFailed p userID :
  Forall (λ m, what m ≠ pairFailed) (Handlers.paired.clear userID p).2.
Proof.
  unfold Handlers.paired.clear.
  destruct (Handlers.paired.deref userID p) as [con|]; simpl; [|done].
  destruct (decide _); by repeat constructor.
Qed.

Lemma paired_add_no_pairFailed p sender receiver :
  Forall (λ m, what m ≠ pairFailed) (Handlers.paired.add sender receiver p).2.
Proof.
  unfold Handlers.paired.add.
  pose proof (paired_clear_no_pairFailed p (UserData.id sender)) as H1.
  destruct (Handlers.paired.clear (UserData.id sender) p) as [p1 out1].
  pose proof (paired_clear_no_pairFailed p1 (UserData.id receiver)) as H2.
  destruct (Handlers.paired.clear (UserData.id receiver) p1) as [p2 out2].
  simpl in *. by apply Forall_app.
Qed.

Lemma paired_confirm_no_pairFailed p myID partnerID :
  Forall (λ m, what m ≠ pairFailed)
    (Handlers.paired.confirm myID partnerID p).2.
Proof.
  unfold Handlers.paired.confirm.
  destruct (Handlers.paired._connections p !! myID) as [ref|]; [|done].
  destruct (Handlers.paired._connections p !! partnerID); [|done].
  destruct (Handlers.paired.heap p !! ref) as [con|]; [|done].
  destruct (_ && _); simpl; by repeat constructor.
Qed.

(** The store of a pool after one of its timers, or a timer of the other
    pool, has fired. *)
Lemma fire_waiting tm st r :
  Handlers.waiting r (Handlers.fire tm st).1 =
    if decide (r = Handlers.captured tm)
    then (Users.expire (Handlers.body tm) (Handlers.waiting r st)).1
    else Handlers.waiting r st.
Proof.
  unfold Handlers.fire.
  destruct (Handlers.captured tm), r; simpl;
    destruct (Users.expire _ _); simpl; by try case_decide.
Qed.

Lemma fire_out tm st :
  (Handlers.fire tm st).2 =
    (Users.expire (Handlers.body tm)
       (Handlers.waiting (Handlers.captured tm) st)).2.
Proof.
  unfold Handlers.fire.
  destruct (Handlers.captured tm); simpl; by destruct (Users.expire _ _).
Qed.

Lemma expire_lookup c s k :
  (Users.expire c s).1 !! k =
    if decide (k = Users.theID c) then None else s !! k.
Proof.
  unfold Users.expire. destruct (s !! Users.theID c) as [u|] eqn:Hu; simpl.
  - case_decide as Hk; [subst; apply lookup_delete_eq|].
    by rewrite lookup_delete_ne.
  - case_decide as Hk; [by subst|done].
Qed.

Lemma expire_out c s :
  Users.callback c = Handlers.notifyPairFailed ->
  (Users.expire c s).2 =
    match s !! Users.theID c with
    | Some u => [Emit u pairFailed]
    | None => []
    end.
Proof.
  intros Hcb. unfold Users.expire.
  destruct (s !! Users.theID c); simpl; [by rewrite Hcb|done].
Qed.

(** Once [P] waits nowhere, timers that fire notify other identities. *)
Lemma fire_due_gone P t pending st :
  (∀ r, Handlers.keyed_by_id (Handlers.waiting r st)) ->
  Forall (λ tm, Users.callback (Handlers.body tm) = Handlers.notifyPairFailed)
    pending ->
  Handlers.gone P st ->
  Handlers.gone P (Handlers.fire_due t pending st).1.1 ∧
  received P pairFailed (Handlers.fire_due t pending st).2 = 0%nat.
Proof.
  revert st. induction pending as [|tm rest IH]; intros st Hkeyed Hcb Hgone;
    simpl; [done|].
  apply Forall_cons in Hcb as [Hcb0 Hcb].
  destruct (Handlers.deadline tm <=? t).
  - pose proof (fire_waiting tm st) as Hw. pose proof (fire_out tm st) as Ho.
    destruct (Handlers.fire tm st) as [st1 out1]. simpl in Hw, Ho.
    assert (∀ r, Handlers.keyed_by_id (Handlers.waiting r st1)) as Hkeyed1.
    { intros r. rewrite Hw. case_decide; [|done].
      by apply keyed_by_id_expire. }
    assert (Handlers.gone P st1) as Hgone1.
    { intros r. rewrite Hw. case_decide; [|done].
      rewrite expire_lookup. by case_decide. }
    assert (received P pairFailed out1 = 0%nat) as Hout1.
    { rewrite Ho, expire_out by done.
      destruct (Handlers.waiting (Handlers.captured tm) st
                  !! Users.theID (Handlers.body tm)) as [u|] eqn:Hu; [|done].
      apply received_other_target. repeat constructor. simpl.
      rewrite (Hkeyed _ _ _ Hu). intros <-.
      specialize (Hgone (Handlers.captured tm)). congruence. }
    specialize (IH st1 Hkeyed1 Hcb Hgone1).
    destruct (Handlers.fire_due t rest st1) as [[st2 keep] out2]. simpl in *.
    split; [tauto|]. rewrite received_app. lia.
  - specialize (IH st Hkeyed Hcb Hgone).
    by destruct (Handlers.fire_due t rest st) as [[st2 keep] out2].
Qed.

(** While [P] waits in pool [r]: either no timer of that pool for [P] is due,
    [P] stays and is not notified; or the first such timer expires [P], which
    is notified once. *)
Lemma fire_due_waiting P r t pending st :
  (∀ r', Handlers.keyed_by_id (Handlers.waiting r' st)) ->
  Forall (λ tm, Users.callback (Handlers.body tm) = Handlers.notifyPairFailed)
    pending ->
  is_Some (Handlers.waiting r st !! P) ->
  (∀ r', r' ≠ r -> Handlers.waiting r' st !! P = None) ->
  let '(st2, keep, out) := Handlers.fire_due t pending st in
  (is_Some (Handlers.waiting r st2 !! P) ∧
   (∀ r', r' ≠ r -> Handlers.waiting r' st2 !! P = None) ∧
   received P pairFailed out = 0%nat ∧
   (∀ tm, tm ∈ pending -> Handlers.captured tm = r ->
          Users.theID (Handlers.body tm) = P -> tm ∈ keep)) ∨
  (Handlers.gone P st2 ∧ received P pairFailed out = 1%nat).
Proof.
  revert st. induction pending as [|tm rest IH];
    intros st Hkeyed Hcb Hin Hnot; simpl.
  { left. repeat split; try done. }
  apply Forall_cons in Hcb as [Hcb0 Hcb].
  destruct (Handlers.deadline tm <=? t) eqn:Hdue.
  - pose proof (fire_waiting tm st) as Hw. pose proof (fire_out tm st) as Ho.
    destruct (Handlers.fire tm st) as [st1 out1] eqn:Hfire. simpl in Hw, Ho.
    assert (∀ r', Handlers.keyed_by_id (Handlers.waiting r' st1)) as Hkeyed1.
    { intros r'. rewrite Hw. case_decide; [|done].
      by apply keyed_by_id_expire. }
    destruct (decide (Handlers.captured tm = r
                      ∧ Users.theID (Handlers.body tm) = P)) as [[Hr HP]|Hnot'].
    + (* the timer of [P] in its pool: [P] expires *)
      assert (Handlers.gone P st1) as Hgone1.
      { intros r'. rewrite Hw. case_decide as Hr'.
        - rewrite expire_lookup. by rewrite HP, decide_True.
        - apply Hnot. congruence. }
      assert (received P pairFailed out1 = 1%nat) as Hout1.
      { rewrite Ho, expire_out by done. rewrite Hr, HP.
        destruct Hin as [u Hu]. rewrite Hu. unfold received.
        rewrite filter_cons_True; [done|]. simpl.
        by rewrite (Hkeyed _ _ _ Hu). }
      pose proof (fire_due_gone P t rest st1 Hkeyed1 Hcb Hgone1) as Hrest.
      destruct (Handlers.fire_due t rest st1) as [[st2 keep] out2].
      simpl in *. right. split; [tauto|]. rewrite received_app. lia.
    + (* another timer: [P] stays *)
      assert (is_Some (Handlers.waiting r st1 !! P)) as Hin1.
      { rewrite Hw. case_decide as Hr'; [|done].
        rewrite expire_lookup. case_decide as HP'; [|done].
        destruct Hnot'. by split. }
      assert (∀ r', r' ≠ r -> Handlers.waiting r' st1 !! P = None) as Hnot1.
      { intros r' Hr'. rewrite Hw. case_decide; [|by apply Hnot].
        rewrite expire_lookup. case_decide; [done|by apply Hnot]. }
      assert (received P pairFailed out1 = 0%nat) as Hout1.
      { rewrite Ho, expire_out by done.
        destruct (Handlers.waiting (Handlers.captured tm) st
                    !! Users.theID (Handlers.body tm)) as [u|] eqn:Hu; [|done].
        apply received_other_target. repeat constructor. simpl.
        rewrite (Hkeyed _ _ _ Hu). intros HP.
        destruct (decide (Handlers.captured tm = r)) as [Hr|Hr];
          [by destruct Hnot'|].
        rewrite HP, (Hnot _ Hr) in Hu. done. }
      specialize (IH st1 Hkeyed1 Hcb Hin1 Hnot1).
      destruct (Handlers.fire_due t rest st1) as [[st2 keep] out2].
      destruct IH as [(? & ? & Hout2 & Hkeep)|[? Hout2]]; [left|right].
      * repeat split; try done; [rewrite received_app; lia|].
        intros tm' Htm' Hr' HP'. apply elem_of_cons in Htm' as [->|Htm'].
        -- destruct Hnot'. by split.
        -- by apply Hkeep.
      * split; [done|]. rewrite received_app. lia.
  - specialize (IH st Hkeyed Hcb Hin Hnot).
    destruct (Handlers.fire_due t rest st) as [[st2 keep] out2].
    destruct IH as [(? & ? & Hout2 & Hkeep)|[? Hout2]]; [left|right; done].
    repeat split; try done.
    intros tm' Htm' Hr' HP'. apply elem_of_cons in Htm' as [->|Htm'].
    + by left.
    + right. by apply Hkeep.
Qed.

End Expiry.

Section ExpiryRuns.

Implicit Types (st : Handlers.state) (r : Handlers.pool).

Lemma invariant_keyed st r :
  Handlers.invariant st -> Handlers.keyed_by_id (Handlers.waiting r st).
Proof. intros [Hs Hr _ _]. by destruct r. Qed.

(** An event that leaves [P] alone changes neither [P]'s entries nor the
    pending timers, and does not send [pairFailed]. *)
Lemma listen_leaves_alone P i st :
  Handlers.invariant st ->
  Handlers.leaves_alone P (Handlers.Deliver i) st ->
  (∀ r, Handlers.waiting r (Handlers.listen i st).1 !! P
        = Handlers.waiting r st !! P) ∧
  received P pairFailed (Handlers.listen i st).2 = 0%nat ∧
  (∀ tm, tm ∈ Handlers.timers st -> tm ∈ Handlers.timers (Handlers.listen i st).1) ∧
  Handlers.now (Handlers.listen i st).1 = Handlers.now st.
Proof.
  intros Hinv Hquiet.
  destruct i as [x|socket x geo|socket x geo fi|x|x y]; simpl in *.
  - repeat split; try done.
    intros []; simpl; unfold Users.clear; by rewrite lookup_delete_ne.
  - destruct Hquiet as [Hjoin Hcand].
    assert (x ≠ P) as Hx by (intros ->; by apply (Hjoin Handlers.ToReceive)).
    unfold Handlers.onPairToReceive.
    destruct (Users.pickUpon _ _) as [partner|] eqn:Hpick; simpl in Hcand.
    + assert (UserData.id partner ≠ P) as Hp by congruence.
      pose proof (paired_add_no_pairFailed (Handlers.registry st) partner
                    (Handlers.receiving_user socket x geo)) as Hadd.
      destruct (Handlers.paired.add _ _ _) as [reg out']. simpl in *.
      repeat split; try done.
      * intros []; simpl; unfold Users.clear; by rewrite !lookup_delete_ne.
      * apply received_other_event. by repeat constructor.
    + simpl. repeat split; try done.
      * intros []; simpl; unfold Users.clear;
          rewrite ?lookup_insert_ne by done; by rewrite lookup_delete_ne.
      * intros tm Htm. apply elem_of_app. by left.
  - destruct Hquiet as [Hjoin Hcand].
    assert (x ≠ P) as Hx by (intros ->; by apply (Hjoin Handlers.ToSend)).
    unfold Handlers.onPairToSend.
    destruct (Users.pickUpon _ _) as [partner|] eqn:Hpick; simpl in Hcand.
    + assert (UserData.id partner ≠ P) as Hp by congruence.
      pose proof (paired_add_no_pairFailed (Handlers.registry st)
                    (Handlers.sending_user socket x geo fi) partner) as Hadd.
      destruct (Handlers.paired.add _ _ _) as [reg out']. simpl in *.
      repeat split; try done.
      * intros []; simpl; unfold Users.clear; by rewrite !lookup_delete_ne.
      * apply received_other_event. by repeat constructor.
    + simpl. repeat split; try done.
      * intros []; simpl; unfold Users.clear;
          rewrite ?lookup_insert_ne by done; by rewrite lookup_delete_ne.
      * intros tm Htm. apply elem_of_app. by left.
  - pose proof (paired_clear_no_pairFailed (Handlers.registry st) x) as Hout.
    destruct (Handlers.paired.clear x (Handlers.registry st)) as [reg out].
    simpl in *. repeat split; try done; try (by intros []).
    by apply received_other_event.
  - pose proof (paired_confirm_no_pairFailed (Handlers.registry st) x y)
      as Hout.
    destruct (Handlers.paired.confirm x y (Handlers.registry st)) as [reg out].
    simpl in *. repeat split; try done; try (by intros []).
    by apply received_other_event.
Qed.

Lemma invariant_callbacks st :
  Handlers.invariant st ->
  Forall (λ tm, Users.callback (Handlers.body tm) = Handlers.notifyPairFailed)
    (Handlers.timers st).
Proof.
  intros [_ _ _ Htm]. apply Forall_forall. intros tm Hin. by apply Htm.
Qed.

Lemma elapse_waiting dt st r :
  Handlers.waiting r (Handlers.elapse dt st).1 =
  Handlers.waiting r
    (Handlers.fire_due (Handlers.now st + dt) (Handlers.timers st) st).1.1.
Proof.
  unfold Handlers.elapse.
  destruct (Handlers.fire_due _ _ _) as [[st1 keep] out]. by destruct r.
Qed.

Lemma step_gone P a st :
  Handlers.invariant st ->
  Handlers.gone P st ->
  Handlers.leaves_alone P a st ->
  Handlers.gone P (Handlers.step a st).1 ∧
  received P pairFailed (Handlers.step a st).2 = 0%nat.
Proof.
  intros Hinv Hgone Hquiet. destruct a as [i|dt].
  - destruct (listen_leaves_alone P i st Hinv Hquiet) as (Hw & Hout & _).
    split; [|done]. intros r. simpl. rewrite Hw. apply Hgone.
  - simpl.
    pose proof (fire_due_gone P (Handlers.now st + dt) (Handlers.timers st) st
                  (λ r, invariant_keyed st r Hinv)
                  (invariant_callbacks st Hinv) Hgone) as [Hgone' Hout].
    split.
    + intros r. rewrite elapse_waiting. apply Hgone'.
    + unfold Handlers.elapse.
      by destruct (Handlers.fire_due _ _ _) as [[st1 keep] out].
Qed.

Lemma step_waiting P r D a st :
  Handlers.invariant st ->
  Handlers.still_waiting r P D st ->
  Handlers.leaves_alone P a st ->
  (Handlers.still_waiting r P D (Handlers.step a st).1 ∧
   received P pairFailed (Handlers.step a st).2 = 0%nat) ∨
  (Handlers.gone P (Handlers.step a st).1 ∧
   received P pairFailed (Handlers.step a st).2 = 1%nat).
Proof.
  intros Hinv (Hin & Hnot & tm & Htm & Hr & HP & HD) Hquiet.
  destruct a as [i|dt].
  - left.
    destruct (listen_leaves_alone P i st Hinv Hquiet) as (Hw & Hout & Hkeep & _).
    split; [|done]. simpl. split; [by rewrite Hw|].
    split; [intros r' Hr'; rewrite Hw; by apply Hnot|].
    exists tm. split; [by apply Hkeep|done].
  - simpl.
    pose proof (fire_due_waiting P r (Handlers.now st + dt)
                  (Handlers.timers st) st
                  (λ r', invariant_keyed st r' Hinv)
                  (invariant_callbacks st Hinv) Hin Hnot) as Hfire.
    pose proof (elapse_waiting dt st) as Hw.
    unfold Handlers.elapse in *.
    destruct (Handlers.fire_due _ _ _) as [[st1 keep] out]. simpl in *.
    destruct Hfire as [(Hin1 & Hnot1 & Hout & Hkeep)|[Hgone Hout]];
      [left|right].
    + split; [|done]. split; [by rewrite Hw|].
      split; [intros r' Hr'; rewrite Hw; by apply Hnot1|].
      exists tm. simpl. split; [by apply Hkeep|done].
    + split; [|done]. intros r'. rewrite Hw. apply Hgone.
Qed.

Lemma run_gone P acts st :
  Handlers.invariant st ->
  Handlers.gone P st ->
  Handlers.undisturbed P acts st ->
  Handlers.gone P (Handlers.run acts st).1 ∧
  received P pairFailed (Handlers.run acts st).2 = 0%nat.
Proof.
  revert st. induction acts as [|a rest IH]; intros st Hinv Hgone Hquiet;
    simpl; [done|].
  destruct Hquiet as [Ha Hrest].
  destruct (step_gone P a st Hinv Hgone Ha) as [Hgone1 Hout1].
  pose proof (invariant_step a st Hinv) as Hinv1.
  destruct (Handlers.step a st) as [st1 out1]. simpl in *.
  specialize (IH st1 Hinv1 Hgone1 Hrest).
  destruct (Handlers.run rest st1) as [st2 out2]. simpl in *.
  split; [tauto|]. rewrite received_app. lia.
Qed.

Lemma run_waiting P r D acts st :
  Handlers.invariant st ->
  Handlers.still_waiting r P D st ->
  Handlers.undisturbed P acts st ->
  (Handlers.still_waiting r P D (Handlers.run acts st).1 ∧
   received P pairFailed (Handlers.run acts st).2 = 0%nat) ∨
  (Handlers.gone P (Handlers.run acts st).1 ∧
   received P pairFailed (Handlers.run acts st).2 = 1%nat).
Proof.
  revert st. induction acts as [|a rest IH]; intros st Hinv Hwait Hquiet;
    simpl; [by left|].
  destruct Hquiet as [Ha Hrest].
  pose proof (step_waiting P r D a st Hinv Hwait Ha) as Hstep.
  pose proof (invariant_step a st Hinv) as Hinv1.
  destruct (Handlers.step a st) as [st1 out1]. simpl in *.
  destruct Hstep as [[Hwait1 Hout1]|[Hgone1 Hout1]].
  - specialize (IH st1 Hinv1 Hwait1 Hrest).
    destruct (Handlers.run rest st1) as [st2 out2]. simpl in *.
    rewrite received_app, Hout1.
    destruct IH as [[? ?]|[? ?]]; [left|right]; by split.
  - pose proof (run_gone P rest st1 Hinv1 Hgone1 Hrest) as Hrun.
    destruct (Handlers.run rest st1) as [st2 out2]. simpl in *.
    right. rewrite received_app, Hout1. split; [tauto|lia].
Qed.

Lemma now_step a st :
  Handlers.now (Handlers.step a st).1 =
  Handlers.now st + Handlers.duration [a].
Proof.
  destruct a as [i|dt]; simpl.
  - rewrite N.add_0_r.
    destruct i as [x|socket x geo|socket x geo fi|x|x y]; simpl; try done.
    + unfold Handlers.onPairToReceive. destruct (Users.pickUpon _ _); [|done].
      by destruct (Handlers.paired.add _ _ _).
    + unfold Handlers.onPairToSend. destruct (Users.pickUpon _ _); [|done].
      by destruct (Handlers.paired.add _ _ _).
    + by destruct (Handlers.paired.clear _ _).
    + by destruct (Handlers.paired.confirm _ _ _).
  - unfold Handlers.elapse.
    destruct (Handlers.fire_due _ _ _) as [[st1 keep] out]. simpl. lia.
Qed.

Lemma now_run acts st :
  Handlers.now (Handlers.run acts st).1 =
  Handlers.now st + Handlers.duration acts.
Proof.
  revert st. induction acts as [|a rest IH]; intros st; simpl; [lia|].
  pose proof (now_step a st) as Hnow.
  destruct (Handlers.step a st) as [st1 out1]. simpl in Hnow.
  specialize (IH st1).
  destruct (Handlers.run rest st1) as [st2 out2]. simpl in *.
  rewrite IH, Hnow. destruct a; simpl; lia.
Qed.

(** A pairing request that finds no candidate puts its identity in its own
    pool only, with a timer due [TIMEOUT] later. *)
Lemma miss_joins i r P st :
  Handlers.joins i = Some (r, P) ->
  Handlers.candidate i st = None ->
  Handlers.still_waiting r P (Handlers.now st + TIMEOUT)
    (Handlers.listen i st).1 ∧
  (Handlers.listen i st).2 = [].
Proof.
  intros Hjoin Hmiss.
  destruct i as [x|socket x geo|socket x geo fi|x|x y]; simpl in *;
    try done; simplify_eq.
  - unfold Handlers.onPairToReceive. rewrite Hmiss. simpl.
    split; [|done]. split; [|split].
    + simpl. rewrite lookup_insert_eq. by eexists.
    + intros [] Hne; [|done]. simpl. apply lookup_delete_eq.
    + eexists. split; [apply elem_of_app; right; by left|]. simpl.
      repeat split; lia.
  - unfold Handlers.onPairToSend. rewrite Hmiss. simpl.
    split; [|done]. split; [|split].
    + simpl. rewrite lookup_insert_eq. by eexists.
    + intros [] Hne; [done|]. simpl. apply lookup_delete_eq.
    + eexists. split; [apply elem_of_app; right; by left|]. simpl.
      repeat split; lia.
Qed.

End ExpiryRuns.

(** C3. A peer inserted into a waiting pool on a pairing miss, which is
    matched with no request (and sends no event of its own) while the
    timeout of 1500 ms runs out, receives exactly one [pairFailed] and is
    removed from the pool: in every reachable state, after a pairing request
    of identity [P] that finds no candidate, every run of at least [TIMEOUT]
    milliseconds that leaves [P] alone sends [pairFailed] to [P] once and
    ends with [P] in no pool. The conclusion first records that the request
    did put [P] in its pool. *)
Theorem unmatched_peer_expires_once st i r P acts :
  Handlers.reachable st ->
  Handlers.joins i = Some (r, P) ->
  Handlers.candidate i st = None ->
  Handlers.undisturbed P acts (Handlers.listen i st).1 ->
  TIMEOUT <= Handlers.duration acts ->
  is_Some (Handlers.waiting r (Handlers.listen i st).1 !! P) ∧
  received P pairFailed (Handlers.run acts (Handlers.listen i st).1).2 = 1%nat ∧
  ∀ r', Handlers.waiting r' (Handlers.run acts (Handlers.listen i st).1).1 !! P
        = None.
Proof.
  intros Hreach Hjoin Hmiss Hquiet Hlong.
  pose proof (invariant_listen i st (invariant_reachable st Hreach)) as Hinv1.
  destruct (miss_joins i r P st Hjoin Hmiss) as [Hwait _].
  pose proof (now_step (Handlers.Deliver i) st) as Hnow1. simpl in Hnow1.
  rewrite N.add_0_r in Hnow1.
  split; [apply Hwait|].
  destruct (run_waiting P r _ acts _ Hinv1 Hwait Hquiet)
    as [[Hstill _]|[Hgone Hout]]; [|by split].
  exfalso.
  destruct Hstill as (_ & _ & tm & Htm & _ & _ & HD).
  assert (Handlers.invariant (Handlers.run acts (Handlers.listen i st).1).1)
    as Hinv2.
  { apply invariant_reachable, reachable_run.
    apply (Handlers.reachable_step (Handlers.Deliver i) st Hreach). }
  destruct (Handlers.inv_timers _ Hinv2 tm Htm) as [Hlt _].
  rewrite now_run, Hnow1 in Hlt. lia.
Qed.

Lemma unmatched_peer_expires_once_witness :
  let i :=
    Handlers.pairToSend (mkSocket 10 "10.0.0.1" 80) 10 None
      (FileInfo.mk "a.txt" 100) in
  let acts :=
    [Handlers.Elapse 1000; Handlers.Deliver (Handlers.disconnect 11);
     Handlers.Elapse 500] in
  let st1 := (Handlers.listen i Handlers.initial).1 in
  is_Some (Handlers.waiting Handlers.ToSend st1 !! 10) ∧
  received 10 pairFailed (Handlers.run acts st1).2 = 1%nat ∧
  ∀ r', Handlers.waiting r' (Handlers.run acts st1).1 !! 10 = None.
Proof.
  intros i acts st1.
  apply (unmatched_peer_expires_once Handlers.initial i Handlers.ToSend 10 acts).
  - apply Handlers.reachable_initial.
  - reflexivity.
  - reflexivity.
  - simpl. repeat split. lia.
  - vm_compute. discriminate.
Defined.

(** ** Defects of [Pairs.add] and of the expiry timers *)

(** With [paired.add] the two identities take part in no connection but the
    new one: the connections they were in are cleared. *)
Lemma paired_add_exclusive p S R k ref con :
  Handlers.registry_ok p ->
  UserData.id S ≠ UserData.id R ->
  let p' := (Handlers.paired.add S R p).1 in
  Handlers.paired._connections p' !! k = Some ref ->
  Handlers.paired.heap p' !! ref = Some con ->
  UserData.id (Handlers.Connection.sender con) ∈ [UserData.id S; UserData.id R] ∨
  UserData.id (Handlers.Connection.receiver con) ∈ [UserData.id S; UserData.id R] ->
  ref = length (Handlers.paired.heap p) ∧
  con = Handlers.Connection.mk S false R false INIT.
Proof.
  intros Hok Hne p' Hk Hh Hpart.
  pose proof (paired_add_ok p S R Hok Hne) as Hok'. fold p' in Hok'.
  destruct (paired_add_stores p S R) as (HS & HR & Hheap).
  fold p' in HS, HR, Hheap.
  destruct (Hok' k ref Hk) as (con' & Hh' & _ & _ & Hs' & Hr').
  assert (con' = con) as -> by congruence.
  assert (ref = length (Handlers.paired.heap p)) as ->.
  { destruct Hpart as [Hin|Hin];
      apply elem_of_cons in Hin as [Heq|Hin];
      try (apply list_elem_of_singleton in Hin as Heq);
      rewrite Heq in *; congruence. }
  split; [done|]. rewrite Hheap, list_lookup_middle in Hh by done.
  congruence.
Qed.

(** C1 (fails on the code). After [add(1, 2)] and [add(1, 3)] on a new
    [Pairs], a reachable state, connection 1 is still in the primary store
    with sender 1, while the index maps identity 1 to connection 2: the
    secondary index is not consistent with the primary store. ([add] deletes
    the index entries of the two identities but leaves their earlier
    connection in [_connections].) *)
Theorem Pairs_index_inconsistent_after_second_add :
  let p := (Pairs.add (peer 1) (peer 3)
              (Pairs.add (peer 1) (peer 2) Pairs.new).1).1 in
  Pairs.reachable p ∧
  Pairs._connections p !! 1
    = Some (Connection.mk 1 (peer 1) false (peer 2) false INIT) ∧
  Pairs._indices p !! 1 = Some 2 ∧
  ¬ Pairs.index_complete p.
Proof.
  intros p.
  assert (Pairs._connections p !! 1
          = Some (Connection.mk 1 (peer 1) false (peer 2) false INIT)) as Hcon
    by reflexivity.
  assert (Pairs._indices p !! 1 = Some 2) as Hidx by reflexivity.
  split; [|split; [done|split; [done|]]].
  - do 2 apply Pairs.reachable_add. apply Pairs.reachable_new.
  - intros Hcomplete. destruct (Hcomplete 1 _ Hcon) as [Hs _].
    vm_compute in Hs. discriminate.
Qed.

(** C4 (fails on the code). [Pairs.add] for a peer that is already in a
    connection does not clear that connection: after [add(1, 2)] and
    [add(1, 3)], [get(1)] still returns the first connection, and identity 2
    is still indexed to it, next to the new connection 2 of identity 1. *)
Theorem Pairs_add_keeps_previous_connection :
  let p1 := (Pairs.add (peer 1) (peer 2) Pairs.new).1 in
  let p2 := (Pairs.add (peer 1) (peer 3) p1).1 in
  (Pairs.add (peer 1) (peer 3) p1).2 = 2 ∧
  Pairs.get 1 p2 = Some (Connection.mk 1 (peer 1) false (peer 2) false INIT) ∧
  Pairs.get 2 p2 = Some (Connection.mk 2 (peer 1) false (peer 3) false INIT) ∧
  Pairs._indices p2 !! 2 = Some 1.
Proof. intros p1 p2. repeat split; reflexivity. Qed.

(** C2 (fails on the code). Identity 10 asks to send at 0 ms and again at
    1000 ms, with no receiver waiting. Both timers are pending after the
    second request. At 1500 ms the earlier timer fires: it is not cancelled
    and its fire is not a no-op, it sends [pairFailed] to the re-inserted
    peer and removes it, 500 ms after the retry. The timer of the retry is
    the one that finds nothing, at 2500 ms. *)
Theorem earlier_timer_expires_the_retry :
  let request :=
    Handlers.Deliver
      (Handlers.pairToSend (mkSocket 10 "10.0.0.1" 80) 10 None
         (FileInfo.mk "a.txt" 100)) in
  let user :=
    Handlers.sending_user (mkSocket 10 "10.0.0.1" 80) 10 None
      (FileInfo.mk "a.txt" 100) in
  let st := (Handlers.run [request; Handlers.Elapse 1000; request]
               Handlers.initial).1 in
  Handlers.toSend st !! 10 = Some user ∧
  map Handlers.deadline (Handlers.timers st) = [1500; 2500] ∧
  (Handlers.elapse 500 st).2 = [Emit user pairFailed] ∧
  Handlers.toSend (Handlers.elapse 500 st).1 !! 10 = None ∧
  map Handlers.deadline (Handlers.timers (Handlers.elapse 500 st).1) = [2500] ∧
  (Handlers.elapse 1000 (Handlers.elapse 500 st).1).2 = [].
Proof. intros request user st. repeat split; reflexivity. Qed.

(** ** Scenarios *)

Section Scenarios.

Let socket10 := mkSocket 10 "10.0.0.1" 80.
Let socket20 := mkSocket 20 "10.0.0.2" 80.
Let file := FileInfo.mk "a.txt" 100.
Let sender10 := Handlers.sending_user socket10 10 None file.
Let receiver20 := Handlers.receiving_user socket20 20 None.

(** The first enumerated key is the smallest. *)
Example pickUpon_smallest_key :
  Users.pickUpon (peer 0) {[ 12 := peer 12; 3 := peer 3; 7 := peer 7 ]}
    = Some (peer 3).
Proof. reflexivity. Qed.

(** A send request with nobody waiting fails after 1500 ms and leaves the
    pool empty. *)
Example scenario_pairFailed :
  let '(st, out) :=
    Handlers.run
      [Handlers.Deliver (Handlers.pairToSend socket10 10 None file);
       Handlers.Elapse 1500] Handlers.initial in
  out = [Emit sender10 pairFailed] ∧ Users.userIDs (Handlers.toSend st) = [].
Proof. split; reflexivity. Qed.

(** A receive request, then a send request within the timeout: both peers
    are told, and one connection object is stored under both identities. *)
Example scenario_pairing :
  let '(st, out) :=
    Handlers.run
      [Handlers.Deliver (Handlers.pairToReceive socket20 20 None);
       Handlers.Elapse 700;
       Handlers.Deliver (Handlers.pairToSend socket10 10 None file);
       Handlers.Elapse 1500] Handlers.initial in
  out = [Emit receiver20 (receive 10 (Some "a.txt") (Some 100));
         Emit sender10 (send 20 (Some "a.txt") (Some 100))] ∧
  Handlers.paired.deref 10 (Handlers.registry st)
    = Some (Handlers.Connection.mk sender10 false receiver20 false INIT) ∧
  Handlers.paired._connections (Handlers.registry st) !! 10
    = Handlers.paired._connections (Handlers.registry st) !! 20 ∧
  Users.userIDs (Handlers.toReceive st) = [].
Proof. repeat split; reflexivity. Qed.

(** After the pairing, the two confirms start the transfer. *)
Example scenario_confirm :
  let '(st, out) :=
    Handlers.run
      [Handlers.Deliver (Handlers.pairToReceive socket20 20 None);
       Handlers.Deliver (Handlers.pairToSend socket10 10 None file);
       Handlers.Deliver (Handlers.confirm 10 20);
       Handlers.Deliver (Handlers.confirm 20 10)] Handlers.initial in
  drop 2 out = [Emit sender10 (startSending 10 20);
                Emit receiver20 (startSending 10 20)] ∧
  Handlers.paired.deref 20 (Handlers.registry st)
    = Some (Handlers.Connection.mk sender10 true receiver20 true SENDING).
Proof. split; reflexivity. Qed.

(** After the pairing, the receiver backs out: the sender is told, and the
    connection resolves for neither identity. *)
Example scenario_confirmFailed :
  let '(st, out) :=
    Handlers.run
      [Handlers.Deliver (Handlers.pairToReceive socket20 20 None);
       Handlers.Deliver (Handlers.pairToSend socket10 10 None file);
       Handlers.Deliver (Handlers.confirmFailed 20)] Handlers.initial in
  drop 2 out = [Emit sender10 (betrayedReceiving 20)] ∧
  Handlers.paired.deref 10 (Handlers.registry st) = None ∧
  Handlers.paired.deref 20 (Handlers.registry st) = None.
Proof. repeat split; reflexivity. Qed.

End Scenarios.

(** * Further properties of the code *)

(** ** Users *)






(** X3. Insertion and expiry: the closure [addTillExpire] hands to the timer,
    run on the store it was made for, calls the callback once on the inserted
    user and leaves the store without that identity; run after the identity
    was cleared, or a second time, it changes nothing and calls nothing. *)
Theorem addTillExpire_then_expire (user : UserData.t)
    (callback : UserData.t -> list emission) (s : Users.store) :
  let s1 := (Users.addTillExpire user callback s).1 in
  let c := (Users.addTillExpire user callback s).2 in
  s1 !! UserData.id user = Some user ∧
  Users.expire c s1 = (Users.clear (UserData.id user) s, callback user) ∧
  Users.expire c (Users.clear (UserData.id user) s1)
    = (Users.clear (UserData.id user) s1, []) ∧
  Users.expire c (Users.expire c s1).1 = ((Users.expire c s1).1, []).
Proof.
  simpl. unfold Users.expire, Users.clear. simpl.
  rewrite lookup_insert_eq, lookup_delete_eq, delete_insert_eq. simpl.
  by rewrite lookup_delete_eq.
Qed.

(** ** paired *)

(** A property of the table that [add] (between different identities),
    [clear] and [confirm] keep holds in every state the handlers reach. *)
Lemma registry_induction (Q : Handlers.paired.t -> Prop) :
  Q Handlers.paired.empty ->
  (∀ p S R, Handlers.registry_ok p -> UserData.id S ≠ UserData.id R ->
            Q p -> Q (Handlers.paired.add S R p).1) ->
  (∀ p x, Q p -> Q (Handlers.paired.clear x p).1) ->
  (∀ p x y, Q p -> Q (Handlers.paired.confirm x y p).1) ->
  ∀ st, Handlers.reachable st -> Q (Handlers.registry st).
Proof.
  intros Hempty Hadd Hclear Hconfirm st Hreach.
  induction Hreach as [|a st Hreach IH]; [done|].
  destruct (invariant_reachable st Hreach) as [Hs Hr Hreg _].
  destruct a as [[x|socket x geo|socket x geo fi|x|x y]|dt]; simpl.
  - done.
  - unfold Handlers.onPairToReceive.
    destruct (Users.pickUpon _ _) as [partner|] eqn:Hpick; [|done].
    apply pickUpon_clear_other in Hpick as [Hne _]; [|done].
    pose proof (Hadd _ partner (Handlers.receiving_user socket x geo)
                  Hreg Hne IH) as HQ.
    by destruct (Handlers.paired.add _ _ _).
  - unfold Handlers.onPairToSend.
    destruct (Users.pickUpon _ _) as [partner|] eqn:Hpick; [|done].
    apply pickUpon_clear_other in Hpick as [Hne _]; [|done].
    pose proof (Hadd _ (Handlers.sending_user socket x geo fi) partner
                  Hreg (not_eq_sym Hne) IH) as HQ.
    by destruct (Handlers.paired.add _ _ _).
  - pose proof (Hclear _ x IH) as HQ.
    by destruct (Handlers.paired.clear _ _).
  - pose proof (Hconfirm _ x y IH) as HQ.
    by destruct (Handlers.paired.confirm _ _ _).
  - unfold Handlers.elapse.
    destruct (fire_due_frame (Handlers.now st + dt) (Handlers.timers st) st)
      as (Hreg' & _ & _).
    destruct (Handlers.fire_due _ _ _) as [[st1 keep] out]. simpl in *.
    by rewrite Hreg'.
Qed.

(** X4. In every state the handlers reach, a key of [paired._connections]
    refers to a connection object between two different identities, is the
    id of one of them, and both ids are keys of that same object: a peer
    takes part in at most one stored connection, and both participants
    resolve to it. *)
Theorem paired_keys_are_participants st k ref :
  Handlers.reachable st ->
  Handlers.paired._connections (Handlers.registry st) !! k = Some ref ->
  ∃ con,
    Handlers.paired.heap (Handlers.registry st) !! ref = Some con ∧
    UserData.id (Handlers.Connection.sender con)
      ≠ UserData.id (Handlers.Connection.receiver con) ∧
    (k = UserData.id (Handlers.Connection.sender con) ∨
     k = UserData.id (Handlers.Connection.receiver con)) ∧
    Handlers.paired._connections (Handlers.registry st)
      !! UserData.id (Handlers.Connection.sender con) = Some ref ∧
    Handlers.paired._connections (Handlers.registry st)
      !! UserData.id (Handlers.Connection.receiver con) = Some ref.
Proof.
  intros Hreach Hk.
  exact (Handlers.inv_registry st (invariant_reachable st Hreach) k ref Hk).
Qed.

Lemma paired_keys_are_participants_witness :
  let st :=
    (Handlers.step
       (Handlers.Deliver
          (Handlers.pairToSend (mkSocket 10 "10.0.0.1" 80) 10 None
             (FileInfo.mk "a.txt" 100)))
       (Handlers.step
          (Handlers.Deliver
             (Handlers.pairToReceive (mkSocket 20 "10.0.0.2" 80) 20 None))
          Handlers.initial).1).1 in
  ∃ con,
    Handlers.paired.heap (Handlers.registry st) !! 0%nat = Some con ∧
    UserData.id (Handlers.Connection.sender con)
      ≠ UserData.id (Handlers.Connection.receiver con) ∧
    (20 = UserData.id (Handlers.Connection.sender con) ∨
     20 = UserData.id (Handlers.Connection.receiver con)) ∧
    Handlers.paired._connections (Handlers.registry st)
      !! UserData.id (Handlers.Connection.sender con) = Some 0%nat ∧
    Handlers.paired._connections (Handlers.registry st)
      !! UserData.id (Handlers.Connection.receiver con) = Some 0%nat.
Proof.
  intros st. apply (paired_keys_are_participants st 20 0%nat).
  - do 2 apply Handlers.reachable_step. apply Handlers.reachable_initial.
  - reflexivity.
Defined.

Lemma statuses_follow_flags st :
  Handlers.reachable st ->
  Forall status_follows_flags (Handlers.paired.heap (Handlers.registry st)).
Proof.
  apply (registry_induction
           (λ p, Forall status_follows_flags (Handlers.paired.heap p))).
  - constructor.
  - intros p S R _ _ Hp.
    destruct (paired_add_stores p S R) as (_ & _ & ->).
    apply Forall_app. split; [done|]. by repeat constructor.
  - intros p x Hp. by rewrite paired_clear_heap.
  - intros p x y Hp.
    destruct (Handlers.paired._connections p !! x) as [ref|] eqn:Hk;
      [|by rewrite paired_confirm_unresolved; [|left]].
    destruct (Handlers.paired._connections p !! y) as [ref'|] eqn:Hk';
      [|by rewrite paired_confirm_unresolved; [|right]].
    destruct (Handlers.paired.heap p !! ref) as [con|] eqn:Hh.
    2:{ unfold Handlers.paired.confirm. by rewrite Hk, Hk', Hh. }
    rewrite (paired_confirm_resolved p x y ref ref' con Hk Hk' Hh).
    pose proof (proj1 (Forall_lookup _ _) Hp ref con Hh) as Hcon.
    unfold status_follows_flags in Hcon. cbv zeta.
    destruct (decide (UserData.id (Handlers.Connection.sender con) = x));
      destruct (Handlers.Connection.senderConfirmed con),
               (Handlers.Connection.receiverConfirmed con);
      simpl in *; apply Forall_insert; try done;
      unfold status_follows_flags; simpl; done.
Qed.

(** X5. In every state the handlers reach, the status of a stored connection
    is SENDING exactly when both sides have confirmed and INIT otherwise; the
    status RECEIVING never occurs. *)
Theorem status_is_SENDING_iff_both_confirmed st k con :
  Handlers.reachable st ->
  Handlers.paired.deref k (Handlers.registry st) = Some con ->
  Handlers.Connection.status con ≠ RECEIVING ∧
  (Handlers.Connection.status con = SENDING ↔
   Handlers.Connection.senderConfirmed con = true ∧
   Handlers.Connection.receiverConfirmed con = true) ∧
  (Handlers.Connection.status con = INIT ↔
   Handlers.Connection.senderConfirmed con = false ∨
   Handlers.Connection.receiverConfirmed con = false).
Proof.
  intros Hreach Hderef. unfold Handlers.paired.deref in Hderef.
  destruct (Handlers.paired._connections (Handlers.registry st) !! k)
    as [ref|]; [|done].
  pose proof (proj1 (Forall_lookup _ _) (statuses_follow_flags st Hreach)
                ref con Hderef) as Hcon.
  unfold status_follows_flags in Hcon. rewrite Hcon.
  destruct (Handlers.Connection.senderConfirmed con),
           (Handlers.Connection.receiverConfirmed con); simpl;
    (split; [done|]); split; split;
    try done; try (intros [? ?]; done); try (intros [?|?]; done); auto.
Qed.

Lemma status_is_SENDING_iff_both_confirmed_witness :
  let st :=
    (Handlers.step (Handlers.Deliver (Handlers.confirm 10 20))
       (Handlers.step
          (Handlers.Deliver
             (Handlers.pairToSend (mkSocket 10 "10.0.0.1" 80) 10 None
                (FileInfo.mk "a.txt" 100)))
          (Handlers.step
             (Handlers.Deliver
                (Handlers.pairToReceive (mkSocket 20 "10.0.0.2" 80) 20 None))
             Handlers.initial).1).1).1 in
  let con :=
    Handlers.Connection.mk
      (Handlers.sending_user (mkSocket 10 "10.0.0.1" 80) 10 None
         (FileInfo.mk "a.txt" 100)) true
      (Handlers.receiving_user (mkSocket 20 "10.0.0.2" 80) 20 None) false
      INIT in
  Handlers.Connection.status con ≠ RECEIVING ∧
  (Handlers.Connection.status con = SENDING ↔
   Handlers.Connection.senderConfirmed con = true ∧
   Handlers.Connection.receiverConfirmed con = true) ∧
  (Handlers.Connection.status con = INIT ↔
   Handlers.Connection.senderConfirmed con = false ∨
   Handlers.Connection.receiverConfirmed con = false).
Proof.
  intros st con. apply (status_is_SENDING_iff_both_confirmed st 20 con).
  - do 3 apply Handlers.reachable_step. apply Handlers.reachable_initial.
  - reflexivity.
Defined.

(** X6. One betrayal per connection: once [paired.clear] has removed a
    connection, a [clear] or a [confirm] by either of its participants
    resolves nothing, changes nothing and emits nothing. *)
Theorem paired_clear_then_partner_is_silent p userID con :
  Handlers.paired.deref userID p = Some con ->
  let p1 := (Handlers.paired.clear userID p).1 in
  ∀ z, z = UserData.id (Handlers.Connection.sender con) ∨
       z = UserData.id (Handlers.Connection.receiver con) ->
    Handlers.paired.deref z p1 = None ∧
    Handlers.paired.clear z p1 = (p1, []) ∧
    ∀ y, Handlers.paired.confirm z y p1 = (p1, []) ∧
         Handlers.paired.confirm y z p1 = (p1, []).
Proof.
  intros Hderef p1 z Hz. unfold Handlers.paired.deref in Hderef.
  destruct (Handlers.paired._connections p !! userID) as [ref|] eqn:Hk;
    [|done].
  assert (Handlers.paired._connections p1 !! z = None) as Hnone.
  { subst p1. rewrite (paired_clear_resolved p userID ref con Hk Hderef).
    simpl. destruct Hz as [->| ->].
    - destruct (decide (UserData.id (Handlers.Connection.receiver con)
                        = UserData.id (Handlers.Connection.sender con)))
        as [Heq|Hne]; [by rewrite Heq, lookup_delete_eq|].
      rewrite lookup_delete_ne by done. apply lookup_delete_eq.
    - apply lookup_delete_eq. }
  split; [unfold Handlers.paired.deref; by rewrite Hnone|].
  split; [by apply paired_clear_unresolved|].
  intros y. split; apply paired_confirm_unresolved; auto.
Qed.

Lemma paired_clear_then_partner_is_silent_witness :
  let p := (Handlers.paired.add (peer 10) (peer 20) Handlers.paired.empty).1 in
  let p1 := (Handlers.paired.clear 20 p).1 in
  Handlers.paired.deref 10 p1 = None ∧
  Handlers.paired.clear 10 p1 = (p1, []) ∧
  ∀ y, Handlers.paired.confirm 10 y p1 = (p1, []) ∧
       Handlers.paired.confirm y 10 p1 = (p1, []).
Proof.
  intros p p1.
  apply (paired_clear_then_partner_is_silent p 20
           (Handlers.Connection.mk (peer 10) false (peer 20) false INIT)).
  - reflexivity.
  - left. reflexivity.
Defined.

(** X7. A new pairing supersedes the old one: when [paired.add(S, R)] finds
    [S] in a connection with another peer [X] (not [R]), [X] is sent the
    betrayal notification, [X] no longer resolves to any connection, and [S]
    resolves to the new, unconfirmed connection with [R]. *)
Theorem paired_add_supersedes p S R con :
  Handlers.registry_ok p ->
  UserData.id S ≠ UserData.id R ->
  Handlers.paired.deref (UserData.id S) p = Some con ->
  let X :=
    if decide (UserData.id S = UserData.id (Handlers.Connection.sender con))
    then Handlers.Connection.receiver con
    else Handlers.Connection.sender con in
  let told :=
    if decide (UserData.id S = UserData.id (Handlers.Connection.sender con))
    then Emit X (betrayedSending (UserData.id S))
    else Emit X (betrayedReceiving (UserData.id S)) in
  UserData.id X ≠ UserData.id R ->
  told ∈ (Handlers.paired.add S R p).2 ∧
  Handlers.paired.deref (UserData.id X) (Handlers.paired.add S R p).1 = None ∧
  Handlers.paired.deref (UserData.id S) (Handlers.paired.add S R p).1
    = Some (Handlers.Connection.mk S false R false INIT).
Proof.
  intros Hok Hne Hderef X told HX. unfold Handlers.paired.deref in Hderef.
  destruct (Handlers.paired._connections p !! UserData.id S) as [ref|] eqn:Hk;
    [|done].
  destruct (Hok _ ref Hk) as (con' & Hh & Hdist & Hpart & Hs & Hr).
  assert (con' = con) as -> by congruence.
  assert (UserData.id X ≠ UserData.id S) as HXS.
  { subst X. case_decide as HS; [congruence|].
    destruct Hpart; congruence. }
  split; [|split].
  - unfold Handlers.paired.add.
    rewrite (paired_clear_resolved p _ ref con Hk Hh).
    destruct (Handlers.paired.clear (UserData.id R) _) as [p2 out2].
    simpl. apply elem_of_app. left. subst told X.
    case_decide as HS.
    + rewrite <- HS. by left.
    + destruct Hpart as [|HS']; [done|]. rewrite <- HS'. by left.
  - pose proof (paired_clear_lookup (Handlers.paired.clear (UserData.id S) p).1
                  (UserData.id R) (UserData.id X)) as Hsub.
    unfold Handlers.paired.add.
    rewrite (paired_clear_resolved p _ ref con Hk Hh) in Hsub |- *.
    destruct (Handlers.paired.clear (UserData.id R) _) as [p2 out2].
    simpl in *. unfold Handlers.paired.deref. simpl.
    rewrite !lookup_insert_ne by done.
    destruct (Handlers.paired._connections p2 !! UserData.id X) as [ref'|]
      eqn:HX2; [|done].
    specialize (Hsub ref' eq_refl).
    apply lookup_delete_Some in Hsub as [HnR Hsub].
    apply lookup_delete_Some in Hsub as [HnS _].
    subst X. case_decide; congruence.
  - destruct (paired_add_stores p S R) as (HS' & _ & Hheap).
    unfold Handlers.paired.deref. rewrite HS', Hheap.
    by apply list_lookup_middle.
Qed.

Lemma paired_add_supersedes_witness :
  let p := (Handlers.paired.add (peer 10) (peer 20) Handlers.paired.empty).1 in
  Emit (peer 20) (betrayedSending 10)
    ∈ (Handlers.paired.add (peer 10) (peer 30) p).2 ∧
  Handlers.paired.deref 20 (Handlers.paired.add (peer 10) (peer 30) p).1
    = None ∧
  Handlers.paired.deref 10 (Handlers.paired.add (peer 10) (peer 30) p).1
    = Some (Handlers.Connection.mk (peer 10) false (peer 30) false INIT).
Proof.
  intros p.
  apply (paired_add_supersedes p (peer 10) (peer 30)
           (Handlers.Connection.mk (peer 10) false (peer 20) false INIT)).
  - apply paired_add_ok.
    + intros k ref Hk. simpl in Hk. by rewrite lookup_empty in Hk.
    + simpl. lia.
  - simpl. lia.
  - reflexivity.
  - simpl. lia.
Defined.

(** X8. [paired.confirm] has no guard on the status: on a connection that
    both sides have confirmed, every further confirm by a participant sends
    the pair of [startSending] notifications again and leaves the connection
    as it is. *)
Theorem paired_confirm_again_restarts p myID partnerID ref ref' sender receiver :
  Handlers.paired._connections p !! myID = Some ref ->
  Handlers.paired._connections p !! partnerID = Some ref' ->
  Handlers.paired.heap p !! ref
    = Some (Handlers.Connection.mk sender true receiver true SENDING) ->
  Handlers.paired.confirm myID partnerID p =
    (p, [Emit sender
           (startSending (UserData.id sender) (UserData.id receiver));
         Emit receiver
           (startSending (UserData.id sender) (UserData.id receiver))]).
Proof.
  intros Hk Hk' Hh.
  rewrite (paired_confirm_resolved p myID partnerID ref ref' _ Hk Hk' Hh).
  simpl. destruct (decide (UserData.id sender = myID)); simpl;
    rewrite list_insert_id by done; by destruct p.
Qed.

Lemma paired_confirm_again_restarts_witness :
  let p :=
    Handlers.paired.mk {[ 10 := 0%nat; 20 := 0%nat ]}
      [Handlers.Connection.mk (peer 10) true (peer 20) true SENDING] in
  Handlers.paired.confirm 20 10 p =
    (p, [Emit (peer 10) (startSending 10 20);
         Emit (peer 20) (startSending 10 20)]).
Proof.
  intros p.
  apply (paired_confirm_again_restarts p 20 10 0%nat 0%nat (peer 10) (peer 20));
    reflexivity.
Defined.

(** X9. [paired.confirm(myID, partnerID)] only asks that [partnerID] is some
    key of the table: which connection that key belongs to does not matter,
    the connection confirmed is [myID]'s. *)
Theorem paired_confirm_any_present_partner p myID partnerID partnerID' :
  is_Some (Handlers.paired._connections p !! partnerID) ->
  is_Some (Handlers.paired._connections p !! partnerID') ->
  Handlers.paired.confirm myID partnerID p
    = Handlers.paired.confirm myID partnerID' p.
Proof.
  intros [ref Hk] [ref' Hk']. unfold Handlers.paired.confirm.
  by rewrite Hk, Hk'.
Qed.

Lemma paired_confirm_any_present_partner_witness :
  let p :=
    (Handlers.paired.add (peer 30) (peer 40)
       (Handlers.paired.add (peer 10) (peer 20) Handlers.paired.empty).1).1 in
  Handlers.paired.confirm 10 20 p = Handlers.paired.confirm 10 40 p.
Proof.
  intros p. apply (paired_confirm_any_present_partner p 10 20 40).
  - exists 0%nat. reflexivity.
  - exists 1%nat. reflexivity.
Defined.

(** ** The pools and their timers *)

Section Pools.

Implicit Types (st : Handlers.state) (r : Handlers.pool).

(** Firing timers only removes entries. *)
Lemma fire_due_shrinks t pending st r k u :
  Handlers.waiting r (Handlers.fire_due t pending st).1.1 !! k = Some u ->
  Handlers.waiting r st !! k = Some u.
Proof.
  revert st. induction pending as [|tm rest IH]; intros st; simpl; [done|].
  destruct (Handlers.deadline tm <=? t).
  - pose proof (fire_waiting tm st r) as Hw.
    destruct (Handlers.fire tm st) as [st1 out1]. simpl in Hw.
    specialize (IH st1).
    destruct (Handlers.fire_due t rest st1) as [[st2 keep] out2]. simpl in *.
    intros Hk. specialize (IH Hk). rewrite Hw in IH.
    case_decide; [|done]. rewrite expire_lookup in IH. by case_decide.
  - specialize (IH st).
    by destruct (Handlers.fire_due t rest st) as [[st2 keep] out2].
Qed.

(** A timer that is due leaves no entry for its identity in its pool. *)
Lemma fire_due_removes t pending st tm :
  tm ∈ pending ->
  Handlers.deadline tm <= t ->
  Handlers.waiting (Handlers.captured tm)
    (Handlers.fire_due t pending st).1.1 !! Users.theID (Handlers.body tm)
    = None.
Proof.
  revert st. induction pending as [|tm0 rest IH]; intros st Hin Hdue; simpl.
  { by apply elem_of_nil in Hin. }
  destruct (Handlers.deadline tm0 <=? t) eqn:Hdue0.
  - pose proof (fire_waiting tm0 st (Handlers.captured tm)) as Hw.
    pose proof (fire_due_shrinks t rest (Handlers.fire tm0 st).1
                  (Handlers.captured tm) (Users.theID (Handlers.body tm)))
      as Hshrink.
    destruct (Handlers.fire tm0 st) as [st1 out1]. simpl in Hw, Hshrink.
    specialize (IH st1).
    destruct (Handlers.fire_due t rest st1) as [[st2 keep] out2]. simpl in *.
    apply elem_of_cons in Hin as [->|Hin]; [|by apply IH].
    destruct (Handlers.waiting (Handlers.captured tm0) st2
                !! Users.theID (Handlers.body tm0)) as [u|] eqn:Hu; [|done].
    specialize (Hshrink u eq_refl). rewrite Hw in Hshrink.
    rewrite decide_True in Hshrink by done.
    rewrite expire_lookup in Hshrink. by rewrite decide_True in Hshrink.
  - apply elem_of_cons in Hin as [->|Hin].
    { apply N.leb_gt in Hdue0. lia. }
    specialize (IH st Hin Hdue).
    by destruct (Handlers.fire_due t rest st) as [[st2 keep] out2].
Qed.

(** A timer that is not due stays pending. *)
Lemma fire_due_keeps t pending st tm :
  tm ∈ pending -> t < Handlers.deadline tm ->
  tm ∈ (Handlers.fire_due t pending st).1.2.
Proof.
  revert st. induction pending as [|tm0 rest IH]; intros st Hin Hnot; simpl.
  { by apply elem_of_nil in Hin. }
  destruct (Handlers.deadline tm0 <=? t) eqn:Hdue0.
  - destruct (Handlers.fire tm0 st) as [st1 out1]. specialize (IH st1).
    destruct (Handlers.fire_due t rest st1) as [[st2 keep] out2]. simpl in *.
    apply elem_of_cons in Hin as [->|Hin]; [|by apply IH].
    apply N.leb_le in Hdue0. lia.
  - specialize (IH st).
    destruct (Handlers.fire_due t rest st) as [[st2 keep] out2]. simpl in *.
    apply elem_of_cons in Hin as [->|Hin]; [by left|right; by apply IH].
Qed.

(** What the timers that fire send: [pairFailed], to entries that were
    waiting and are removed. *)
Lemma fire_due_emits t pending st m :
  (∀ r, Handlers.keyed_by_id (Handlers.waiting r st)) ->
  Forall (λ tm, Users.callback (Handlers.body tm) = Handlers.notifyPairFailed)
    pending ->
  m ∈ (Handlers.fire_due t pending st).2 ->
  what m = pairFailed ∧
  ∃ r, Handlers.waiting r st !! UserData.id (to m) = Some (to m) ∧
       Handlers.waiting r (Handlers.fire_due t pending st).1.1
         !! UserData.id (to m) = None.
Proof.
  revert st. induction pending as [|tm rest IH]; intros st Hkeyed Hcb; simpl.
  { intros Hin. by apply elem_of_nil in Hin. }
  apply Forall_cons in Hcb as [Hcb0 Hcb].
  destruct (Handlers.deadline tm <=? t).
  - pose proof (fire_waiting tm st) as Hw. pose proof (fire_out tm st) as Ho.
    pose proof (fire_due_shrinks t rest (Handlers.fire tm st).1) as Hshrink.
    destruct (Handlers.fire tm st) as [st1 out1]. simpl in Hw, Ho, Hshrink.
    assert (∀ r, Handlers.keyed_by_id (Handlers.waiting r st1)) as Hkeyed1.
    { intros r. rewrite Hw. case_decide; [|done].
      by apply keyed_by_id_expire. }
    specialize (IH st1 Hkeyed1 Hcb).
    destruct (Handlers.fire_due t rest st1) as [[st2 keep] out2]. simpl in *.
    intros Hin. apply elem_of_app in Hin as [Hin|Hin].
    + rewrite Ho, expire_out in Hin by done.
      destruct (Handlers.waiting (Handlers.captured tm) st
                  !! Users.theID (Handlers.body tm)) as [u|] eqn:Hu;
        [|by apply elem_of_nil in Hin].
      apply list_elem_of_singleton in Hin as ->. simpl. split; [done|].
      pose proof (Hkeyed _ _ _ Hu) as Hid.
      exists (Handlers.captured tm). rewrite Hid. split; [done|].
      destruct (Handlers.waiting (Handlers.captured tm) st2
                  !! Users.theID (Handlers.body tm)) as [u'|] eqn:Hu';
        [|done].
      specialize (Hshrink _ _ _ Hu'). rewrite Hw in Hshrink.
      rewrite decide_True in Hshrink by done.
      rewrite expire_lookup in Hshrink. by rewrite decide_True in Hshrink.
    + destruct (IH Hin) as (Hwhat & r & Hbefore & Hafter).
      split; [done|]. exists r. split; [|done].
      rewrite Hw in Hbefore. case_decide; [|done].
      rewrite expire_lookup in Hbefore. by case_decide.
  - specialize (IH st Hkeyed Hcb).
    by destruct (Handlers.fire_due t rest st) as [[st2 keep] out2].
Qed.

End Pools.

(** X10. [pairFailed] comes from the timers only: no listener of
    [initSocket] (pairing request, confirm, confirmFailed, disconnect) ever
    sends it, in any state. *)
Theorem listeners_never_send_pairFailed (i : Handlers.input)
    (st : Handlers.state) :
  Forall (λ m, what m ≠ pairFailed) (Handlers.listen i st).2.
Proof.
  destruct i as [x|socket x geo|socket x geo fi|x|x y]; simpl.
  - constructor.
  - unfold Handlers.onPairToReceive.
    destruct (Users.pickUpon _ _) as [partner|]; [|constructor].
    pose proof (paired_add_no_pairFailed (Handlers.registry st) partner
                  (Handlers.receiving_user socket x geo)) as Hadd.
    destruct (Handlers.paired.add _ _ _) as [reg out']. simpl in *.
    by repeat constructor.
  - unfold Handlers.onPairToSend.
    destruct (Users.pickUpon _ _) as [partner|]; [|constructor].
    pose proof (paired_add_no_pairFailed (Handlers.registry st)
                  (Handlers.sending_user socket x geo fi) partner) as Hadd.
    destruct (Handlers.paired.add _ _ _) as [reg out']. simpl in *.
    by repeat constructor.
  - pose proof (paired_clear_no_pairFailed (Handlers.registry st) x) as Hout.
    by destruct (Handlers.paired.clear _ _).
  - pose proof (paired_confirm_no_pairFailed (Handlers.registry st) x y)
      as Hout.
    by destruct (Handlers.paired.confirm _ _ _).
Qed.

(** X11. When time passes, the only notifications are [pairFailed], each
    sent to a user that was waiting in a pool under its own id and is no
    longer in that pool afterwards. *)
Theorem elapse_sends_pairFailed_to_expired st dt m :
  Handlers.reachable st ->
  m ∈ (Handlers.elapse dt st).2 ->
  what m = pairFailed ∧
  ∃ r, Handlers.waiting r st !! UserData.id (to m) = Some (to m) ∧
       Handlers.waiting r (Handlers.elapse dt st).1 !! UserData.id (to m)
         = None.
Proof.
  intros Hreach Hin.
  pose proof (invariant_reachable st Hreach) as Hinv.
  pose proof (fire_due_emits (Handlers.now st + dt) (Handlers.timers st) st m
                (λ r, invariant_keyed st r Hinv)
                (invariant_callbacks st Hinv)) as Hemit.
  pose proof (elapse_waiting dt st) as Hw.
  unfold Handlers.elapse in *.
  destruct (Handlers.fire_due _ _ _) as [[st1 keep] out]. simpl in *.
  destruct (Hemit Hin) as (Hwhat & r & Hbefore & Hafter).
  split; [done|]. exists r. by rewrite Hw.
Qed.

Lemma elapse_sends_pairFailed_to_expired_witness :
  let user :=
    Handlers.sending_user (mkSocket 10 "10.0.0.1" 80) 10 None
      (FileInfo.mk "a.txt" 100) in
  let st :=
    (Handlers.step
       (Handlers.Deliver
          (Handlers.pairToSend (mkSocket 10 "10.0.0.1" 80) 10 None
             (FileInfo.mk "a.txt" 100)))
       Handlers.initial).1 in
  what (Emit user pairFailed) = pairFailed ∧
  ∃ r, Handlers.waiting r st !! UserData.id (to (Emit user pairFailed))
         = Some (to (Emit user pairFailed)) ∧
       Handlers.waiting r (Handlers.elapse 2000 st).1
         !! UserData.id (to (Emit user pairFailed)) = None.
Proof.
  intros user st.
  apply (elapse_sends_pairFailed_to_expired st 2000 (Emit user pairFailed)).
  - apply Handlers.reachable_step. apply Handlers.reachable_initial.
  - vm_compute. left.
Defined.

Section PoolInvariants.

Implicit Types (st : Handlers.state) (r : Handlers.pool).

Lemma disjoint_pools_step a st :
  disjoint_pools st -> disjoint_pools (Handlers.step a st).1.
Proof.
  intros Hdis.
  destruct a as [[x|socket x geo|socket x geo fi|x|x y]|dt]; simpl.
  - intros k. simpl. unfold Users.clear.
    destruct (Hdis k) as [Hk|Hk]; [left|right];
      apply lookup_delete_None; by right.
  - unfold Handlers.onPairToReceive.
    destruct (Users.pickUpon _ _) as [partner|].
    + destruct (Handlers.paired.add _ _ _) as [reg out']. simpl.
      intros k. simpl. unfold Users.clear.
      destruct (Hdis k) as [Hk|Hk]; [left|right];
        repeat (apply lookup_delete_None; right); done.
    + simpl. intros k. simpl. unfold Users.clear.
      destruct (decide (k = x)) as [->|Hne]; [left; apply lookup_delete_eq|].
      rewrite lookup_insert_ne by done.
      destruct (Hdis k) as [Hk|Hk]; [left|right];
        apply lookup_delete_None; by right.
  - unfold Handlers.onPairToSend.
    destruct (Users.pickUpon _ _) as [partner|].
    + destruct (Handlers.paired.add _ _ _) as [reg out']. simpl.
      intros k. simpl. unfold Users.clear.
      destruct (Hdis k) as [Hk|Hk]; [left|right];
        repeat (apply lookup_delete_None; right); done.
    + simpl. intros k. simpl. unfold Users.clear.
      destruct (decide (k = x)) as [->|Hne]; [right; apply lookup_delete_eq|].
      rewrite lookup_insert_ne by done.
      destruct (Hdis k) as [Hk|Hk]; [left|right];
        apply lookup_delete_None; by right.
  - by destruct (Handlers.paired.clear _ _).
  - by destruct (Handlers.paired.confirm _ _ _).
  - pose proof (fire_due_shrinks (Handlers.now st + dt) (Handlers.timers st)
                  st) as Hshrink.
    unfold Handlers.elapse.
    destruct (Handlers.fire_due _ _ _) as [[st1 keep] out]. simpl in *.
    intros k. simpl.
    destruct (Hdis k) as [Hk|Hk]; [left|right].
    + destruct (Handlers.toSend st1 !! k) as [u|] eqn:Hu; [|done].
      specialize (Hshrink Handlers.ToSend k u Hu). simpl in Hshrink.
      congruence.
    + destruct (Handlers.toReceive st1 !! k) as [u|] eqn:Hu; [|done].
      specialize (Hshrink Handlers.ToReceive k u Hu). simpl in Hshrink.
      congruence.
Qed.

Lemma disjoint_pools_reachable st :
  Handlers.reachable st -> disjoint_pools st.
Proof.
  induction 1 as [|a st _ IH]; [by left|by apply disjoint_pools_step].
Qed.

(** What a listener does to the pools and the timers: an entry afterwards
    was there before, or is the requester's own, inserted on a miss together
    with a timer due [TIMEOUT] later; no pending timer is dropped. *)
Lemma listen_entries i st r k :
  is_Some (Handlers.waiting r (Handlers.listen i st).1 !! k) ->
  is_Some (Handlers.waiting r st !! k) ∨
  ∃ c, Users.theID c = k ∧
       Handlers.mkTimer r c (Handlers.now st + TIMEOUT)
         ∈ Handlers.timers (Handlers.listen i st).1.
Proof.
  destruct i as [x|socket x geo|socket x geo fi|x|x y]; simpl.
  - destruct r; simpl; unfold Users.clear; intros [u Hu]; left;
      apply lookup_delete_Some in Hu as [_ Hu]; eauto.
  - unfold Handlers.onPairToReceive.
    destruct (Users.pickUpon _ _) as [partner|].
    + destruct (Handlers.paired.add _ _ _) as [reg out'].
      destruct r; simpl; unfold Users.clear; intros [u Hu]; left;
        repeat (apply lookup_delete_Some in Hu as [_ Hu]); eauto.
    + destruct r; simpl; unfold Users.clear; intros [u Hu].
      * left. apply lookup_delete_Some in Hu as [_ Hu]. eauto.
      * apply lookup_insert_Some in Hu as [[<- _]|[_ Hu]].
        -- right. eexists. split; [|apply elem_of_app; right; by left]. done.
        -- left. apply lookup_delete_Some in Hu as [_ Hu]. eauto.
  - unfold Handlers.onPairToSend.
    destruct (Users.pickUpon _ _) as [partner|].
    + destruct (Handlers.paired.add _ _ _) as [reg out'].
      destruct r; simpl; unfold Users.clear; intros [u Hu]; left;
        repeat (apply lookup_delete_Some in Hu as [_ Hu]); eauto.
    + destruct r; simpl; unfold Users.clear; intros [u Hu].
      * apply lookup_insert_Some in Hu as [[<- _]|[_ Hu]].
        -- right. eexists. split; [|apply elem_of_app; right; by left]. done.
        -- left. apply lookup_delete_Some in Hu as [_ Hu]. eauto.
      * left. apply lookup_delete_Some in Hu as [_ Hu]. eauto.
  - destruct (Handlers.paired.clear _ _). destruct r; simpl; auto.
  - destruct (Handlers.paired.confirm _ _ _). destruct r; simpl; auto.
Qed.

Lemma listen_timers i st tm :
  tm ∈ Handlers.timers st -> tm ∈ Handlers.timers (Handlers.listen i st).1.
Proof.
  destruct i as [x|socket x geo|socket x geo fi|x|x y]; simpl; try done.
  - unfold Handlers.onPairToReceive.
    destruct (Users.pickUpon _ _) as [partner|].
    + by destruct (Handlers.paired.add _ _ _).
    + simpl. intros Hin. apply elem_of_app. by left.
  - unfold Handlers.onPairToSend.
    destruct (Users.pickUpon _ _) as [partner|].
    + by destruct (Handlers.paired.add _ _ _).
    + simpl. intros Hin. apply elem_of_app. by left.
  - by destruct (Handlers.paired.clear _ _).
  - by destruct (Handlers.paired.confirm _ _ _).
Qed.

Lemma covered_step a st : covered st -> covered (Handlers.step a st).1.
Proof.
  intros Hcov. destruct a as [i|dt].
  - intros r k Hk. simpl in *.
    pose proof (now_step (Handlers.Deliver i) st) as Hnow. simpl in Hnow.
    rewrite N.add_0_r in Hnow. rewrite Hnow.
    destruct (listen_entries i st r k Hk) as [Hold|(c & Hc & Hin)].
    + destruct (Hcov r k Hold) as (tm & Htm & ? & ? & ?).
      exists tm. split; [by apply listen_timers|done].
    + eexists. split; [exact Hin|]. simpl. repeat split; [done|lia].
  - intros r k [u Hu]. simpl in *.
    pose proof (elapse_waiting dt st r) as Hw. rewrite Hw in Hu.
    pose proof (fire_due_shrinks _ _ _ _ _ _ Hu) as Hbefore.
    destruct (Hcov r k (ex_intro _ u Hbefore)) as (tm & Htm & Hr & Hk & HD).
    destruct (decide (Handlers.deadline tm <= Handlers.now st + dt))
      as [Hdue|Hnot].
    + pose proof (fire_due_removes (Handlers.now st + dt) (Handlers.timers st)
                    st tm Htm Hdue) as Hgone.
      rewrite Hr, Hk in Hgone. congruence.
    + pose proof (fire_due_keeps (Handlers.now st + dt) (Handlers.timers st)
                    st tm Htm) as Hkeep.
      unfold Handlers.elapse.
      destruct (Handlers.fire_due _ _ _) as [[st1 keep] out]. simpl in *.
      exists tm. split; [apply Hkeep; lia|]. repeat split; try done. lia.
Qed.

Lemma covered_reachable st : Handlers.reachable st -> covered st.
Proof.
  induction 1 as [|a st _ IH]; [|by apply covered_step].
  intros r k [u Hu]. destruct r; simpl in Hu; by rewrite lookup_empty in Hu.
Qed.

End PoolInvariants.

(** X12. In every state the handlers reach, no identity waits in both pools:
    each pairing request clears its identity from both pools before it joins
    one. *)
Theorem never_in_both_pools st k :
  Handlers.reachable st ->
  ¬ (is_Some (Handlers.toSend st !! k) ∧ is_Some (Handlers.toReceive st !! k)).
Proof.
  intros Hreach [[u Hu] [u' Hu']].
  destruct (disjoint_pools_reachable st Hreach k); congruence.
Qed.

Lemma never_in_both_pools_witness :
  let st :=
    (Handlers.step
       (Handlers.Deliver
          (Handlers.pairToReceive (mkSocket 10 "10.0.0.1" 80) 10 None))
       (Handlers.step
          (Handlers.Deliver
             (Handlers.pairToSend (mkSocket 10 "10.0.0.1" 80) 10 None
                (FileInfo.mk "a.txt" 100)))
          Handlers.initial).1).1 in
  ¬ (is_Some (Handlers.toSend st !! 10)
     ∧ is_Some (Handlers.toReceive st !! 10)).
Proof.
  intros st. apply (never_in_both_pools st 10).
  do 2 apply Handlers.reachable_step. apply Handlers.reachable_initial.
Defined.

(** X13. Nobody waits longer than the timeout: in every state the handlers
    reach, each waiting entry has a pending timer of its pool due within
    [TIMEOUT], and once [TIMEOUT] milliseconds or more pass with no event
    both pools are empty. *)
Theorem pools_empty_after_timeout st dt :
  Handlers.reachable st ->
  TIMEOUT <= dt ->
  covered st ∧
  Handlers.toSend (Handlers.elapse dt st).1 = ∅ ∧
  Handlers.toReceive (Handlers.elapse dt st).1 = ∅.
Proof.
  intros Hreach Hlong. pose proof (covered_reachable st Hreach) as Hcov.
  split; [done|].
  assert (∀ r k, Handlers.waiting r (Handlers.elapse dt st).1 !! k = None)
    as Hnone.
  { intros r k.
    destruct (Handlers.waiting r (Handlers.elapse dt st).1 !! k) as [u|]
      eqn:Hu; [|done].
    rewrite elapse_waiting in Hu.
    pose proof (fire_due_shrinks _ _ _ _ _ _ Hu) as Hbefore.
    destruct (Hcov r k (ex_intro _ u Hbefore)) as (tm & Htm & Hr & Hk & HD).
    pose proof (fire_due_removes (Handlers.now st + dt) (Handlers.timers st)
                  st tm Htm) as Hgone.
    rewrite Hr, Hk in Hgone. rewrite Hgone in Hu; [done|lia]. }
  split; apply map_empty; intros k.
  - apply (Hnone Handlers.ToSend k).
  - apply (Hnone Handlers.ToReceive k).
Qed.

Lemma pools_empty_after_timeout_witness :
  let st :=
    (Handlers.step
       (Handlers.Deliver
          (Handlers.pairToSend (mkSocket 11 "10.0.0.1" 80) 11 None
             (FileInfo.mk "b.txt" 5)))
       (Handlers.step (Handlers.Elapse 900)
          (Handlers.step
             (Handlers.Deliver
                (Handlers.pairToSend (mkSocket 10 "10.0.0.1" 80) 10 None
                   (FileInfo.mk "a.txt" 100)))
             Handlers.initial).1).1).1 in
  covered st ∧
  Handlers.toSend (Handlers.elapse 1500 st).1 = ∅ ∧
  Handlers.toReceive (Handlers.elapse 1500 st).1 = ∅.
Proof.
  intros st. apply (pools_empty_after_timeout st 1500).
  - do 3 apply Handlers.reachable_step. apply Handlers.reachable_initial.
  - unfold TIMEOUT. lia.
Defined.

(** ** Pairing requests *)

Lemma paired_clear_betrays p userID :
  Forall (λ m, ∃ x, what m = betrayedSending x ∨ what m = betrayedReceiving x)
    (Handlers.paired.clear userID p).2.
Proof.
  unfold Handlers.paired.clear.
  destruct (Handlers.paired.deref userID p) as [con|]; simpl; [|done].
  destruct (decide _); repeat constructor; eauto.
Qed.

Lemma paired_add_betrays p sender receiver :
  Forall (λ m, ∃ x, what m = betrayedSending x ∨ what m = betrayedReceiving x)
    (Handlers.paired.add sender receiver p).2.
Proof.
  unfold Handlers.paired.add.
  pose proof (paired_clear_betrays p (UserData.id sender)) as H1.
  destruct (Handlers.paired.clear (UserData.id sender) p) as [p1 out1].
  pose proof (paired_clear_betrays p1 (UserData.id receiver)) as H2.
  destruct (Handlers.paired.clear (UserData.id receiver) p1) as [p2 out2].
  simpl in *. by apply Forall_app.
Qed.

Lemma paired_add_deref p S R :
  let con := Handlers.Connection.mk S false R false INIT in
  Handlers.paired.deref (UserData.id S) (Handlers.paired.add S R p).1
    = Some con ∧
  Handlers.paired.deref (UserData.id R) (Handlers.paired.add S R p).1
    = Some con.
Proof.
  destruct (paired_add_stores p S R) as (HS & HR & Hheap).
  unfold Handlers.paired.deref. rewrite HS, HR, Hheap.
  split; by apply list_lookup_middle.
Qed.

(** X14. A send request that is offered a candidate: the candidate is
    another identity, taken from the receive pool; afterwards neither of the
    two waits in any pool and no timer was started; both resolve to one new
    unconfirmed connection with the requester as sender; the candidate is
    sent [receive] and the requester [send], both with the requester's file
    name and size, and whatever else is sent is a betrayal notification for a
    superseded connection. *)
Theorem matched_send_request st socket sendID geo fileInfo partner :
  Handlers.reachable st ->
  Users.pickUpon (Handlers.sending_user socket sendID geo fileInfo)
    (Users.clear sendID (Handlers.toReceive st)) = Some partner ->
  let user := Handlers.sending_user socket sendID geo fileInfo in
  let st' := (Handlers.onPairToSend socket sendID geo fileInfo st).1 in
  let out := (Handlers.onPairToSend socket sendID geo fileInfo st).2 in
  let con := Handlers.Connection.mk user false partner false INIT in
  UserData.id partner ≠ sendID ∧
  Handlers.toReceive st !! UserData.id partner = Some partner ∧
  (∀ r, Handlers.waiting r st' !! sendID = None ∧
        Handlers.waiting r st' !! UserData.id partner = None) ∧
  Handlers.timers st' = Handlers.timers st ∧
  Handlers.paired.deref sendID (Handlers.registry st') = Some con ∧
  Handlers.paired.deref (UserData.id partner) (Handlers.registry st')
    = Some con ∧
  ∃ out',
    out = [Emit partner (receive sendID (Some (FileInfo.name fileInfo))
                           (Some (FileInfo.size fileInfo)));
           Emit user (send (UserData.id partner)
                        (Some (FileInfo.name fileInfo))
                        (Some (FileInfo.size fileInfo)))] ++ out' ∧
    Forall (λ m, ∃ x, what m = betrayedSending x ∨ what m = betrayedReceiving x)
      out'.
Proof.
  intros Hreach Hpick user st' out con.
  destruct (invariant_reachable st Hreach) as [Hs Hr _ _].
  destruct (pickUpon_clear_other _ _ _ _ Hr Hpick) as [Hne Hin].
  pose proof (disjoint_pools_reachable st Hreach (UserData.id partner)) as Hdis.
  pose proof (paired_add_deref (Handlers.registry st) user partner) as Hderef.
  pose proof (paired_add_betrays (Handlers.registry st) user partner) as Hbet.
  subst st' out. unfold Handlers.onPairToSend. fold user in Hpick |- *.
  rewrite Hpick.
  destruct (Handlers.paired.add user partner (Handlers.registry st))
    as [reg out'].
  simpl in *. split; [done|]. split; [done|]. split.
  { intros []; simpl; unfold Users.clear; split.
    - apply lookup_delete_eq.
    - apply lookup_delete_None. right. destruct Hdis; congruence.
    - apply lookup_delete_None. right. apply lookup_delete_eq.
    - apply lookup_delete_eq. }
  split; [done|]. split; [apply Hderef|]. split; [apply Hderef|].
  by exists out'.
Qed.

Lemma matched_send_request_witness :
  let st :=
    (Handlers.step
       (Handlers.Deliver
          (Handlers.pairToReceive (mkSocket 20 "10.0.0.2" 80) 20 None))
       Handlers.initial).1 in
  let socket := mkSocket 10 "10.0.0.1" 80 in
  let fileInfo := FileInfo.mk "a.txt" 100 in
  let partner := Handlers.receiving_user (mkSocket 20 "10.0.0.2" 80) 20 None in
  let user := Handlers.sending_user socket 10 None fileInfo in
  let st' := (Handlers.onPairToSend socket 10 None fileInfo st).1 in
  let out := (Handlers.onPairToSend socket 10 None fileInfo st).2 in
  let con := Handlers.Connection.mk user false partner false INIT in
  UserData.id partner ≠ 10 ∧
  Handlers.toReceive st !! UserData.id partner = Some partner ∧
  (∀ r, Handlers.waiting r st' !! 10 = None ∧
        Handlers.waiting r st' !! UserData.id partner = None) ∧
  Handlers.timers st' = Handlers.timers st ∧
  Handlers.paired.deref 10 (Handlers.registry st') = Some con ∧
  Handlers.paired.deref (UserData.id partner) (Handlers.registry st')
    = Some con ∧
  ∃ out',
    out = [Emit partner (receive 10 (Some (FileInfo.name fileInfo))
                           (Some (FileInfo.size fileInfo)));
           Emit user (send (UserData.id partner)
                        (Some (FileInfo.name fileInfo))
                        (Some (FileInfo.size fileInfo)))] ++ out' ∧
    Forall (λ m, ∃ x, what m = betrayedSending x ∨ what m = betrayedReceiving x)
      out'.
Proof.
  intros st socket fileInfo partner.
  apply (matched_send_request st socket 10 None fileInfo partner).
  - apply Handlers.reachable_step. apply Handlers.reachable_initial.
  - reflexivity.
Defined.

(** X15. A receive request that is offered a candidate: the candidate is
    another identity, taken from the send pool; afterwards neither of the two
    waits in any pool and no timer was started; both resolve to one new
    unconfirmed connection with the candidate as sender; the candidate is
    sent [confirmSend] and the requester [confirmReceive], both with the
    candidate's file name and size, and whatever else is sent is a betrayal
    notification for a superseded connection. *)
Theorem matched_receive_request st socket receiveID geo partner :
  Handlers.reachable st ->
  Users.pickUpon (Handlers.receiving_user socket receiveID geo)
    (Users.clear receiveID (Handlers.toSend st)) = Some partner ->
  let user := Handlers.receiving_user socket receiveID geo in
  let st' := (Handlers.onPairToReceive socket receiveID geo st).1 in
  let out := (Handlers.onPairToReceive socket receiveID geo st).2 in
  let con := Handlers.Connection.mk partner false user false INIT in
  UserData.id partner ≠ receiveID ∧
  Handlers.toSend st !! UserData.id partner = Some partner ∧
  (∀ r, Handlers.waiting r st' !! receiveID = None ∧
        Handlers.waiting r st' !! UserData.id partner = None) ∧
  Handlers.timers st' = Handlers.timers st ∧
  Handlers.paired.deref receiveID (Handlers.registry st') = Some con ∧
  Handlers.paired.deref (UserData.id partner) (Handlers.registry st')
    = Some con ∧
  ∃ out',
    out = [Emit partner (confirmSend receiveID (UserData.fileName partner)
                           (UserData.fileSize partner));
           Emit user (confirmReceive (UserData.id partner)
                        (UserData.fileName partner)
                        (UserData.fileSize partner))] ++ out' ∧
    Forall (λ m, ∃ x, what m = betrayedSending x ∨ what m = betrayedReceiving x)
      out'.
Proof.
  intros Hreach Hpick user st' out con.
  destruct (invariant_reachable st Hreach) as [Hs Hr _ _].
  destruct (pickUpon_clear_other _ _ _ _ Hs Hpick) as [Hne Hin].
  pose proof (disjoint_pools_reachable st Hreach (UserData.id partner)) as Hdis.
  pose proof (paired_add_deref (Handlers.registry st) partner user) as Hderef.
  pose proof (paired_add_betrays (Handlers.registry st) partner user) as Hbet.
  subst st' out. unfold Handlers.onPairToReceive. fold user in Hpick |- *.
  rewrite Hpick.
  destruct (Handlers.paired.add partner user (Handlers.registry st))
    as [reg out'].
  simpl in *. split; [done|]. split; [done|]. split.
  { intros []; simpl; unfold Users.clear; split.
    - apply lookup_delete_None. right. apply lookup_delete_eq.
    - apply lookup_delete_eq.
    - apply lookup_delete_eq.
    - apply lookup_delete_None. right. destruct Hdis; congruence. }
  split; [done|]. split; [apply Hderef|]. split; [apply Hderef|].
  by exists out'.
Qed.

Lemma matched_receive_request_witness :
  let st :=
    (Handlers.step
       (Handlers.Deliver
          (Handlers.pairToSend (mkSocket 10 "10.0.0.1" 80) 10 None
             (FileInfo.mk "a.txt" 100)))
       Handlers.initial).1 in
  let socket := mkSocket 20 "10.0.0.2" 80 in
  let partner :=
    Handlers.sending_user (mkSocket 10 "10.0.0.1" 80) 10 None
      (FileInfo.mk "a.txt" 100) in
  let user := Handlers.receiving_user socket 20 None in
  let st' := (Handlers.onPairToReceive socket 20 None st).1 in
  let out := (Handlers.onPairToReceive socket 20 None st).2 in
  let con := Handlers.Connection.mk partner false user false INIT in
  UserData.id partner ≠ 20 ∧
  Handlers.toSend st !! UserData.id partner = Some partner ∧
  (∀ r, Handlers.waiting r st' !! 20 = None ∧
        Handlers.waiting r st' !! UserData.id partner = None) ∧
  Handlers.timers st' = Handlers.timers st ∧
  Handlers.paired.deref 20 (Handlers.registry st') = Some con ∧
  Handlers.paired.deref (UserData.id partner) (Handlers.registry st')
    = Some con ∧
  ∃ out',
    out = [Emit partner (confirmSend 20 (UserData.fileName partner)
                           (UserData.fileSize partner));
           Emit user (confirmReceive (UserData.id partner)
                        (UserData.fileName partner)
                        (UserData.fileSize partner))] ++ out' ∧
    Forall (λ m, ∃ x, what m = betrayedSending x ∨ what m = betrayedReceiving x)
      out'.
Proof.
  intros st socket partner.
  apply (matched_receive_request st socket 20 None partner).
  - apply Handlers.reachable_step. apply Handlers.reachable_initial.
  - reflexivity.
Defined.

(** ** Notifications and insertions *)

Section Counting.

Implicit Types (st : Handlers.state) (P : N).

Lemma pending_cons P tm l :
  pending P (tm :: l) =
    ((if decide (Users.theID (Handlers.body tm) = P) then 1 else 0)
     + pending P l)%nat.
Proof.
  unfold pending. case_decide.
  - by rewrite filter_cons_True.
  - by rewrite filter_cons_False.
Qed.

Lemma pending_app P l1 l2 :
  pending P (l1 ++ l2) = (pending P l1 + pending P l2)%nat.
Proof. unfold pending. by rewrite filter_app, length_app. Qed.

(** A timer that fires sends at most one [pairFailed], to its own
    identity. *)
Lemma fire_received P tm st :
  (∀ r, Handlers.keyed_by_id (Handlers.waiting r st)) ->
  Users.callback (Handlers.body tm) = Handlers.notifyPairFailed ->
  (received P pairFailed (Handlers.fire tm st).2
   <= if decide (Users.theID (Handlers.body tm) = P) then 1 else 0)%nat.
Proof.
  intros Hkeyed Hcb. rewrite fire_out, expire_out by done.
  destruct (Handlers.waiting (Handlers.captured tm) st
              !! Users.theID (Handlers.body tm)) as [u|] eqn:Hu.
  - pose proof (Hkeyed _ _ _ Hu) as Hid. unfold received.
    case_decide as HP.
    + rewrite filter_cons_True by (simpl; by rewrite Hid). simpl. lia.
    + rewrite filter_cons_False; [simpl; lia|].
      simpl. intros [? _]. congruence.
  - unfold received. simpl. case_decide; lia.
Qed.

Lemma fire_due_received P t timers st :
  (∀ r, Handlers.keyed_by_id (Handlers.waiting r st)) ->
  Forall (λ tm, Users.callback (Handlers.body tm) = Handlers.notifyPairFailed)
    timers ->
  (received P pairFailed (Handlers.fire_due t timers st).2
   + pending P (Handlers.fire_due t timers st).1.2
   <= pending P timers)%nat.
Proof.
  revert st. induction timers as [|tm rest IH]; intros st Hkeyed Hcb; simpl.
  { done. }
  apply Forall_cons in Hcb as [Hcb0 Hcb]. rewrite pending_cons.
  destruct (Handlers.deadline tm <=? t).
  - pose proof (fire_received P tm st Hkeyed Hcb0) as Hone.
    pose proof (fire_waiting tm st) as Hw.
    destruct (Handlers.fire tm st) as [st1 out1]. simpl in Hone, Hw.
    assert (∀ r, Handlers.keyed_by_id (Handlers.waiting r st1)) as Hkeyed1.
    { intros r. rewrite Hw.
      destruct (decide (r = Handlers.captured tm)); [|done].
      by apply keyed_by_id_expire. }
    specialize (IH st1 Hkeyed1 Hcb).
    destruct (Handlers.fire_due t rest st1) as [[st2 keep] out2]. simpl in *.
    rewrite received_app. lia.
  - specialize (IH st Hkeyed Hcb).
    destruct (Handlers.fire_due t rest st) as [[st2 keep] out2]. simpl in *.
    rewrite pending_cons. lia.
Qed.

(** A listener starts a timer exactly on a miss, for the requester. *)
Lemma listen_schedules i st :
  Handlers.timers (Handlers.listen i st).1 =
    Handlers.timers st ++
    match Handlers.joins i, Handlers.candidate i st with
    | Some (r, id), None =>
        [Handlers.mkTimer r (Users.mkClosure id Handlers.notifyPairFailed)
           (Handlers.now st + TIMEOUT)]
    | _, _ => []
    end.
Proof.
  destruct i as [x|socket x geo|socket x geo fi|x|x y]; simpl.
  - by rewrite app_nil_r.
  - unfold Handlers.onPairToReceive.
    destruct (Users.pickUpon _ _) as [partner|]; [|done].
    destruct (Handlers.paired.add _ _ _). simpl. by rewrite app_nil_r.
  - unfold Handlers.onPairToSend.
    destruct (Users.pickUpon _ _) as [partner|]; [|done].
    destruct (Handlers.paired.add _ _ _). simpl. by rewrite app_nil_r.
  - destruct (Handlers.paired.clear _ _). simpl. by rewrite app_nil_r.
  - destruct (Handlers.paired.confirm _ _ _). simpl. by rewrite app_nil_r.
Qed.

Lemma step_received P a st :
  Handlers.invariant st ->
  (received P pairFailed (Handlers.step a st).2
   + pending P (Handlers.timers (Handlers.step a st).1)
   <= pending P (Handlers.timers st) + insertions P [a] st)%nat.
Proof.
  intros Hinv. destruct a as [i|dt]; simpl.
  - rewrite (received_other_event P pairFailed _
               (listeners_never_send_pairFailed i st)).
    rewrite listen_schedules, pending_app.
    destruct (Handlers.joins i) as [[r id]|]; [|unfold pending; simpl; lia].
    destruct (Handlers.candidate i st); [unfold pending; simpl; lia|].
    rewrite pending_cons. simpl. case_decide; unfold pending; simpl; lia.
  - pose proof (fire_due_received P (Handlers.now st + dt) (Handlers.timers st)
                  st (λ r, invariant_keyed st r Hinv)
                  (invariant_callbacks st Hinv)) as Hfire.
    unfold Handlers.elapse.
    destruct (Handlers.fire_due _ _ _) as [[st1 keep] out]. simpl in *. lia.
Qed.

Lemma run_received P acts st :
  Handlers.invariant st ->
  (received P pairFailed (Handlers.run acts st).2
   + pending P (Handlers.timers (Handlers.run acts st).1)
   <= pending P (Handlers.timers st) + insertions P acts st)%nat.
Proof.
  revert st. induction acts as [|a rest IH]; intros st Hinv.
  { simpl. unfold received. simpl. lia. }
  pose proof (step_received P a st Hinv) as Hstep.
  pose proof (invariant_step a st Hinv) as Hinv1.
  specialize (IH _ Hinv1).
  assert (insertions P (a :: rest) st
          = (insertions P [a] st
             + insertions P rest (Handlers.step a st).1)%nat) as ->
    by (simpl; lia).
  generalize dependent (insertions P [a] st). intros n Hstep.
  simpl.
  destruct (Handlers.step a st) as [st1 out1]. simpl in *.
  destruct (Handlers.run rest st1) as [st2 out2]. simpl in *.
  rewrite received_app. lia.
Qed.

End Counting.

(** X16. At most one [pairFailed] per insertion: in every run of the
    handlers, the [pairFailed] notifications sent to an identity, together
    with the timers still pending for it at the end, are no more than the
    timers pending for it at the start plus its pairing requests that found
    no candidate; from the initial state an identity is sent [pairFailed] at
    most as often as it was inserted into a pool. *)
Theorem pairFailed_at_most_once_per_insertion st P acts :
  Handlers.reachable st ->
  (received P pairFailed (Handlers.run acts st).2
   + pending P (Handlers.timers (Handlers.run acts st).1)
   <= pending P (Handlers.timers st) + insertions P acts st)%nat ∧
  (received P pairFailed (Handlers.run acts Handlers.initial).2
   <= insertions P acts Handlers.initial)%nat.
Proof.
  intros Hreach. split.
  - by apply run_received, invariant_reachable.
  - pose proof (run_received P acts Handlers.initial invariant_initial) as H.
    unfold pending in H at 2. simpl in H. lia.
Qed.

Lemma pairFailed_at_most_once_per_insertion_witness :
  let request :=
    Handlers.Deliver
      (Handlers.pairToSend (mkSocket 10 "10.0.0.1" 80) 10 None
         (FileInfo.mk "a.txt" 100)) in
  let acts := [Handlers.Elapse 1000; request; Handlers.Elapse 3000] in
  let st := (Handlers.step request Handlers.initial).1 in
  (received 10 pairFailed (Handlers.run acts st).2
   + pending 10 (Handlers.timers (Handlers.run acts st).1)
   <= pending 10 (Handlers.timers st) + insertions 10 acts st)%nat ∧
  (received 10 pairFailed (Handlers.run acts Handlers.initial).2
   <= insertions 10 acts Handlers.initial)%nat.
Proof.
  intros request acts st.
  apply (pairFailed_at_most_once_per_insertion st 10 acts).
  apply Handlers.reachable_step. apply Handlers.reachable_initial.
Defined.

(** ** Pairs *)



(** X18. [Pairs.clear] throws in one case only: the connection is stored, a
    truthy [fromUserID] is given and the callback is omitted (the call of the
    missing callback comes before the deletions). In every other case it
    returns, with the counter untouched and [conID] no longer stored. *)
Theorem Pairs_clear_throws_iff p conID fromUserID callback :
  (Pairs.clear conID fromUserID callback p = TypeError ↔
   is_Some (Pairs._connections p !! conID) ∧ truthy fromUserID = true ∧
   callback = None) ∧
  (∀ p' out, Pairs.clear conID fromUserID callback p = Normal (p', out) ->
     Pairs.get conID p' = None ∧ Pairs.connectionID p' = Pairs.connectionID p).
Proof.
  unfold Pairs.clear, Pairs.get.
  destruct (Pairs._connections p !! conID) as [con|] eqn:Hcon.
  - destruct (truthy fromUserID); [destruct callback as [cb|]|]; simpl.
    + split; [split; [done|by intros (_ & _ & ?)]|].
      intros p' out [= <- _]. simpl. split; [apply lookup_delete_eq|done].
    + split; [split; [by eauto|done]|done].
    + split; [split; [done|by intros (_ & ? & _)]|].
      intros p' out [= <- _]. simpl. split; [apply lookup_delete_eq|done].
  - split; [split; [done|by intros ([? ?] & _)]|].
    by intros p' out [= <- _].
Qed.

Lemma Pairs_clear_throws_iff_witness :
  let p := (Pairs.add (peer 1) (peer 2) Pairs.new).1 in
  Pairs.clear 1 (Some 2) None p = TypeError ∧
  Pairs.get 1 (Pairs.mk 1 ∅ ∅) = None ∧
  Pairs.connectionID (Pairs.mk 1 ∅ ∅) = Pairs.connectionID p.
Proof.
  intros p. split.
  - apply (proj1 (Pairs_clear_throws_iff p 1 (Some 2) None)).
    split; [by eexists|done].
  - apply (proj2 (Pairs_clear_throws_iff p 1 (Some 2)
                    (Some Handlers.notifyPairFailed))
             (Pairs.mk 1 ∅ ∅) [Emit (peer 1) pairFailed]).
    reflexivity.
Defined.

Section PairsConsistency.

Implicit Types (p : Pairs.t).





End PairsConsistency.



Lemma Pairs_statuses_reachable p :
  Pairs.reachable p ->
  ∀ c con, Pairs._connections p !! c = Some con -> Connection.status con = INIT.
Proof.
  induction 1 as [|sender receiver p _ IH|conID userID p _ IH
                  |conID fromUserID callback p p' out _ IH Hclear];
    intros c con.
  - simpl. by rewrite lookup_empty.
  - simpl. destruct (decide (c = Pairs.connectionID p + 1)) as [->|Hne].
    + rewrite lookup_insert_eq. by intros [= <-].
    + rewrite lookup_insert_ne by done. apply IH.
  - unfold Pairs.confirm.
    destruct (Pairs._connections p !! conID) as [con0|] eqn:Hcon0; simpl;
      [|apply IH].
    destruct (decide (c = conID)) as [->|Hne].
    + rewrite lookup_insert_eq. intros [= <-].
      pose proof (IH conID con0 Hcon0). by destruct (decide _).
    + rewrite lookup_insert_ne by done. apply IH.
  - unfold Pairs.clear in Hclear.
    destruct (Pairs._connections p !! conID) as [con0|] eqn:Hcon0.
    + destruct (truthy fromUserID); [destruct callback|];
        simplify_eq; simpl; intros Hc;
        apply lookup_delete_Some in Hc as [_ Hc]; by eapply IH.
    + simplify_eq. apply IH.
Qed.

(** X20. [Pairs] never moves a connection out of INIT: in every state of a
    [Pairs] object, a stored connection has status INIT, also when [confirm]
    has returned [true] for it, and carries the key it is stored under as
    its [id]. *)
Theorem Pairs_status_stays_INIT p c con :
  Pairs.reachable p ->
  Pairs.get c p = Some con ->
  Connection.status con = INIT ∧ Connection.id con = c.
Proof.
  intros Hreach Hcon. split.
  - by eapply Pairs_statuses_reachable.
  - by destruct (ids_bounded_reachable p Hreach c con Hcon).
Qed.

Lemma Pairs_status_stays_INIT_witness :
  let p :=
    (Pairs.confirm 1 20
       (Pairs.confirm 1 10
          (Pairs.add (peer 10) (peer 20) Pairs.new).1).1).1 in
  let con := Connection.mk 1 (peer 10) true (peer 20) true INIT in
  Connection.status con = INIT ∧ Connection.id con = 1.
Proof.
  intros p con. apply (Pairs_status_stays_INIT p 1 con).
  - do 2 apply Pairs.reachable_confirm. apply Pairs.reachable_add.
    apply Pairs.reachable_new.
  - reflexivity.
Defined.

Section PairsIds.

Implicit Types (p : Pairs.t).

Lemma ids_keys p :
  map Pairs.entry_connectionID (Pairs.ids p)
    = merge_sort N.le (map fst (map_to_list (Pairs._connections p))).
Proof.
  unfold Pairs.ids.
  assert (∀ c, c ∈ merge_sort N.le (map fst (map_to_list (Pairs._connections p)))
               -> is_Some (Pairs._connections p !! c)) as Hkeys.
  { intros c. rewrite merge_sort_Permutation, list_elem_of_fmap.
    intros [[k con] [-> Hin]]. apply elem_of_map_to_list in Hin. by exists con. }
  induction (merge_sort N.le (map fst (map_to_list (Pairs._connections p))))
    as [|c l IH]; [done|].
  simpl. destruct (Hkeys c) as [con Hcon]; [by left|]. rewrite Hcon. simpl.
  f_equal. apply IH. intros c' Hc'. apply Hkeys. by right.
Qed.

End PairsIds.

(** X21. [Pairs.ids] returns one element per stored connection, carrying the
    connection's key and the ids of its sender and receiver, in ascending
    order of the keys and without repetition. *)
Theorem Pairs_ids_lists_the_store p :
  (∀ e, e ∈ Pairs.ids p ↔
        ∃ con, Pairs.get (Pairs.entry_connectionID e) p = Some con ∧
               Pairs.entry_senderID e = UserData.id (Connection.sender con) ∧
               Pairs.entry_receiverID e
                 = UserData.id (Connection.receiver con)) ∧
  length (Pairs.ids p) = size (Pairs._connections p) ∧
  StronglySorted N.le (map Pairs.entry_connectionID (Pairs.ids p)) ∧
  NoDup (map Pairs.entry_connectionID (Pairs.ids p)).
Proof.
  split; [|split; [|split]].
  - intros e. unfold Pairs.ids, Pairs.get. rewrite list_elem_of_omap. split.
    + intros (c & _ & He).
      destruct (Pairs._connections p !! c) as [con|] eqn:Hcon; [|done].
      simpl in He. injection He as <-. simpl. by exists con.
    + intros (con & Hcon & Hs & Hr). exists (Pairs.entry_connectionID e).
      split.
      * rewrite merge_sort_Permutation, list_elem_of_fmap.
        exists (Pairs.entry_connectionID e, con). split; [done|].
        by apply elem_of_map_to_list.
      * rewrite Hcon. simpl. destruct e; simpl in *. by subst.
  - rewrite <- (length_map Pairs.entry_connectionID), ids_keys.
    rewrite merge_sort_Permutation, length_fmap. apply length_map_to_list.
  - rewrite ids_keys. apply StronglySorted_merge_sort.
    + intros x y z. lia.
    + intros x y. lia.
  - rewrite ids_keys.
    eapply NoDup_Permutation_proper; [apply merge_sort_Permutation|].
    apply NoDup_fst_map_to_list.
Qed.

(** ** The gateway *)




(** ** utils.js *)

Section Strings.

Implicit Types (s t : string) (c : ascii).

Lemma chars_app s t : chars (s +:+ t) = chars s ++ chars t.
Proof. induction s as [|c s IH]; simpl; [done|]. by rewrite IH. Qed.

Lemma chars_inj s t : chars s = chars t -> s = t.
Proof.
  revert t. induction s as [|c s IH]; intros [|c' t]; simpl; try done.
  intros [= -> Hrest]. f_equal. by apply IH.
Qed.

Lemma chars_length s : length (chars s) = String.length s.
Proof. induction s as [|c s IH]; simpl; [done|]. by rewrite IH. Qed.

Lemma append_empty_r s : s +:+ "" = s.
Proof. apply chars_inj. by rewrite chars_app, app_nil_r. Qed.

(** [join] with a separator, unfolded one element at a time. *)
Lemma chars_concat_cons sep s l :
  chars (String.concat sep (s :: l)) =
    chars s ++ match l with
               | [] => []
               | _ => chars sep ++ chars (String.concat sep l)
               end.
Proof.
  destruct l as [|s' l]; simpl; [by rewrite app_nil_r|].
  by rewrite !chars_app.
Qed.

(** Two lists cut at the first occurrence of a separator. *)
Lemma cut_at_first c (l1 r1 l2 r2 : list ascii) :
  c ∉ l1 -> c ∉ l2 -> l1 ++ c :: r1 = l2 ++ c :: r2 -> l1 = l2 ∧ r1 = r2.
Proof.
  revert l2. induction l1 as [|a l1 IH]; intros [|b l2] H1 H2; simpl.
  - by intros [= ->].
  - intros [= <- _]. destruct H2. by left.
  - intros [= -> _]. destruct H1. by left.
  - intros [= -> Hrest].
    destruct (IH l2) as [-> ->]; try done.
    + intros ?. apply H1. by right.
    + intros ?. apply H2. by right.
Qed.

Lemma not_a_prefix_of_cut c (l1 l2 r2 : list ascii) :
  c ∉ l1 -> l1 ≠ l2 ++ c :: r2.
Proof. intros Hc ->. apply Hc. apply elem_of_app. right. by left. Qed.

(** [join('&')] can be undone on elements that are not empty and have no
    ['&']. *)
Lemma concat_amp_inj (l1 l2 : list string) :
  Forall (λ s, (amp ∉ chars s) ∧ chars s ≠ []) l1 ->
  Forall (λ s, (amp ∉ chars s) ∧ chars s ≠ []) l2 ->
  String.concat "&" l1 = String.concat "&" l2 -> l1 = l2.
Proof.
  revert l2. induction l1 as [|s1 l1 IH]; intros [|s2 l2] H1 H2 Heq.
  - done.
  - apply Forall_cons in H2 as [[_ Hne] _]. exfalso.
    apply (f_equal chars) in Heq. rewrite chars_concat_cons in Heq.
    simpl in Heq. destruct (chars s2); [done|discriminate].
  - apply Forall_cons in H1 as [[_ Hne] _]. exfalso.
    apply (f_equal chars) in Heq. rewrite chars_concat_cons in Heq.
    simpl in Heq. destruct (chars s1); [done|discriminate].
  - apply Forall_cons in H1 as [[Hs1 _] H1].
    apply Forall_cons in H2 as [[Hs2 _] H2].
    apply (f_equal chars) in Heq. rewrite !chars_concat_cons in Heq.
    destruct l1 as [|s1' l1], l2 as [|s2' l2].
    + rewrite !app_nil_r in Heq. f_equal. by apply chars_inj.
    + rewrite app_nil_r in Heq. simpl in Heq.
      by apply not_a_prefix_of_cut in Heq.
    + rewrite app_nil_r in Heq. simpl in Heq. symmetry in Heq.
      by apply not_a_prefix_of_cut in Heq.
    + simpl in Heq. apply cut_at_first in Heq as [Hs Hrest]; [|done..].
      f_equal; [by apply chars_inj|].
      apply IH; [done..|]. by apply chars_inj.
Qed.

Lemma escape_chars s c :
  c ∈ chars (escape s) -> c ≠ amp ∧ c ≠ equals.
Proof.
  induction s as [|a s IH]; simpl; [by intros ?%elem_of_nil|].
  rewrite chars_app. intros Hin. apply elem_of_app in Hin as [Hin|Hin];
    [|by apply IH].
  destruct (Ascii.eqb a "&") eqn:Ha1; [|destruct (Ascii.eqb a "=") eqn:Ha2;
    [|destruct (Ascii.eqb a "%") eqn:Ha3]]; simpl in Hin;
    repeat (apply elem_of_cons in Hin as [->|Hin]);
    try (by apply elem_of_nil in Hin); try (by split).
  apply Ascii.eqb_neq in Ha1, Ha2. done.
Qed.

Lemma charAt_src i :
  (i < String.length xs.src)%nat ->
  ∃ c, xs.charAt i xs.src = String c "" ∧ is_alnum c = true.
Proof.
  intros Hi. unfold xs.charAt.
  do 62 (destruct i as [|i]; [eexists; split; [cbv; reflexivity|reflexivity]|]).
  simpl in Hi. lia.
Qed.

Lemma concat_empty_cons s l :
  chars (String.concat "" (s :: l)) = chars s ++ chars (String.concat "" l).
Proof. rewrite chars_concat_cons. by destruct l. Qed.

Lemma pushes_chars random count i :
  (∀ j, random j < String.length xs.src)%nat ->
  length (chars (String.concat "" (xs.pushes count i random))) = count ∧
  Forall (λ c, is_alnum c = true)
    (chars (String.concat "" (xs.pushes count i random))).
Proof.
  intros Hrandom. revert i. induction count as [|count IH]; intros i.
  { simpl. by split. }
  cbn [xs.pushes]. rewrite concat_empty_cons.
  destruct (charAt_src (random i) (Hrandom i)) as (c & -> & Hc).
  destruct (IH (S i)) as [Hlen Hall]. simpl. split; [by rewrite Hlen|].
  by constructor.
Qed.

End Strings.

(** X24. [xs.randomKey(len)] returns a string of [len] characters, 16 when
    [len] is omitted or 0, each of them an ASCII letter or digit, whenever
    each index [Math.floor(Math.random() * src.length)] is below
    [src.length]. *)
Theorem randomKey_length_and_alphabet (len : option N) (random : nat -> nat) :
  (∀ i, random i < String.length xs.src)%nat ->
  String.length (xs.randomKey len random)
    = N.to_nat (if truthy len then default 16 len else 16) ∧
  Forall (λ c, is_alnum c = true) (chars (xs.randomKey len random)).
Proof.
  intros Hrandom. unfold xs.randomKey. rewrite <- chars_length.
  assert (match len with
          | Some n => if truthy len then n else 16
          | None => 16
          end = if truthy len then default 16 len else 16) as ->.
  { destruct len as [n|]; [|done]. unfold truthy. by destruct (negb _). }
  by apply pushes_chars.
Qed.

Lemma randomKey_length_and_alphabet_witness :
  String.length (xs.randomKey (Some 5) (λ i, (7 * i) `mod` 62)%nat) = 5%nat ∧
  Forall (λ c, is_alnum c = true)
    (chars (xs.randomKey (Some 5) (λ i, (7 * i) `mod` 62)%nat)).
Proof.
  apply (randomKey_length_and_alphabet (Some 5) (λ i, (7 * i) `mod` 62)%nat).
  intros i. change (String.length xs.src) with 62%nat.
  apply Nat.mod_upper_bound. lia.
Defined.

(** X25. [xs.encodeDict] loses nothing: with an encoder whose results hold
    neither ['&'] nor ['='] (as [encodeURIComponent] escapes both), two
    dictionaries with the same query string have the same encoded keys and
    values, property by property in order; with an encoder that is
    one-to-one in addition, they are the same dictionary. The empty
    dictionary gives the empty string. *)
Theorem encodeDict_injective (encode : string -> string)
    (d1 d2 : list (string * string)) :
  (∀ s, (amp ∉ chars (encode s)) ∧ (equals ∉ chars (encode s))) ->
  xs.encodeDict encode d1 = xs.encodeDict encode d2 ->
  xs.encodeDict encode [] = "" ∧
  map (λ kv, (encode kv.1, encode kv.2)) d1
    = map (λ kv, (encode kv.1, encode kv.2)) d2 ∧
  ((∀ a b, encode a = encode b -> a = b) -> d1 = d2).
Proof.
  intros Hfree Heq. split; [done|].
  assert (∀ d : list (string * string),
            Forall (λ s, (amp ∉ chars s) ∧ chars s ≠ [])
              (map (λ kv, encode kv.1 +:+ "=" +:+ encode kv.2) d)) as Hall.
  { intros d. apply Forall_fmap, Forall_forall. intros [k v] _. simpl.
    rewrite !chars_app. simpl. split.
    - intros Hin. apply elem_of_app in Hin as [Hin|Hin];
        [by apply (proj1 (Hfree k))|].
      apply elem_of_cons in Hin as [Hin|Hin];
        [discriminate|by apply (proj1 (Hfree v))].
    - by destruct (chars (encode k)). }
  unfold xs.encodeDict in Heq.
  apply concat_amp_inj in Heq; [|apply Hall..].
  assert (map (λ kv, (encode kv.1, encode kv.2)) d1
          = map (λ kv, (encode kv.1, encode kv.2)) d2) as Hpairs.
  { clear Hall. revert d2 Heq.
    induction d1 as [|[k1 v1] d1 IH]; intros [|[k2 v2] d2]; simpl; try done.
    intros [= Hhead Hrest]. apply (f_equal chars) in Hhead.
    rewrite !chars_app in Hhead. simpl in Hhead.
    apply cut_at_first in Hhead as [Hk Hv];
      [|apply (proj2 (Hfree k1))|apply (proj2 (Hfree k2))].
    apply chars_inj in Hk, Hv. rewrite Hk, Hv. f_equal. by apply IH. }
  split; [done|]. intros Hinj. clear Heq. revert d2 Hpairs.
  induction d1 as [|[k1 v1] d1 IH]; intros [|[k2 v2] d2]; simpl; try done.
  intros [= Hk Hv Hrest]. apply Hinj in Hk, Hv. subst. f_equal. by apply IH.
Qed.

Lemma encodeDict_injective_witness :
  xs.encodeDict escape [] = "" ∧
  map (λ kv, (escape kv.1, escape kv.2)) [("a&b", "1=2"); ("c", "")]
    = map (λ kv, (escape kv.1, escape kv.2)) [("a&b", "1=2"); ("c", "")] ∧
  ((∀ a b, escape a = escape b -> a = b) ->
   [("a&b", "1=2"); ("c", "")] = [("a&b", "1=2"); ("c", "")]).
Proof.
  apply (encodeDict_injective escape).
  - intros s. split; intros Hin; by destruct (escape_chars s _ Hin).
  - reflexivity.
Defined.

Example encodeDict_example :
  xs.encodeDict escape [("a&b", "1=2"); ("c", "")] = "a%26b=1%3D2&c=".
Proof. reflexivity. Qed.

(** ** Disconnection *)

(** X26. A disconnect cancels the expiry: once the [disconnect] listener has
    run for an identity, that identity waits in no pool and, as long as it
    sends no pairing request of its own, no run of the handlers sends it
    [pairFailed], whatever timers were pending for it; the listener itself
    sends nothing and leaves the connection table as it is. *)
Theorem disconnect_cancels_expiry st P acts :
  Handlers.reachable st ->
  let st1 := (Handlers.listen (Handlers.disconnect P) st).1 in
  Handlers.undisturbed P acts st1 ->
  (Handlers.listen (Handlers.disconnect P) st).2 = [] ∧
  Handlers.registry st1 = Handlers.registry st ∧
  (∀ r, Handlers.waiting r st1 !! P = None) ∧
  received P pairFailed (Handlers.run acts st1).2 = 0%nat ∧
  (∀ r, Handlers.waiting r (Handlers.run acts st1).1 !! P = None).
Proof.
  intros Hreach st1 Hquiet.
  assert (Handlers.gone P st1) as Hgone.
  { intros []; simpl; apply lookup_delete_eq. }
  pose proof (invariant_listen (Handlers.disconnect P) st
                (invariant_reachable st Hreach)) as Hinv.
  destruct (run_gone P acts st1 Hinv Hgone Hquiet) as [Hgone' Hout].
  by repeat split.
Qed.

Lemma disconnect_cancels_expiry_witness :
  let st :=
    (Handlers.step
       (Handlers.Deliver
          (Handlers.pairToSend (mkSocket 10 "10.0.0.1" 80) 10 None
             (FileInfo.mk "a.txt" 100)))
       Handlers.initial).1 in
  let acts := [Handlers.Elapse 2000] in
  let st1 := (Handlers.listen (Handlers.disconnect 10) st).1 in
  (Handlers.listen (Handlers.disconnect 10) st).2 = [] ∧
  Handlers.registry st1 = Handlers.registry st ∧
  (∀ r, Handlers.waiting r st1 !! 10 = None) ∧
  received 10 pairFailed (Handlers.run acts st1).2 = 0%nat ∧
  (∀ r, Handlers.waiting r (Handlers.run acts st1).1 !! 10 = None).
Proof.
  intros st acts.
  apply (disconnect_cancels_expiry st 10 acts).
  - apply Handlers.reachable_step. apply Handlers.reachable_initial.
  - simpl. done.
Defined.

